(** * Zoneamento: marker store and nearest-neighbour route optimiser

    A shallow embedding of [src/App.tsx] (the React state cells of [App] and
    its event handlers) together with the [MapMarker] type of [src/types.ts].

    JavaScript numbers are IEEE 754 binary64 values, rendered here by Rocq's
    primitive floats; arrays are lists; [string | null] and
    [MapMarker[] | null] are options; a [Set<string>] is a [gset string]. *)

From Stdlib Require Import ZArith Floats.
From stdpp Require Import gmap strings list.
From Equations Require Import Equations.

(** ** Data model ([src/types.ts]) *)

(** Values of the open part of a marker ([[key: string]: any]): what a
    parsed file row or a feature's properties can hold. *)
Inductive JsValue : Type :=
  | JsUndefined
  | JsNull
  | JsBoolean (b : bool)
  | JsNumber (x : float)
  | JsString (s : string).

(** [MapMarker]: the declared fields, and the remaining keys in insertion
    order. *)
Record MapMarker : Type := mkMarker {
  id : string;
  latitude : float;
  longitude : float;
  name : option string;
  icon : option string;
  extra : list (string * JsValue)
}.

#[export] Instance float_eq_dec : EqDecision float.
Proof.
  intros x y. destruct (PrimFloat.Leibniz.eqb x y) eqn:E.
  - left. by apply FloatAxioms.Leibniz.eqb_spec.
  - right. intros H. apply FloatAxioms.Leibniz.eqb_spec in H. congruence.
Defined.

#[export] Instance JsValue_eq_dec : EqDecision JsValue.
Proof. solve_decision. Defined.

#[export] Instance MapMarker_eq_dec : EqDecision MapMarker.
Proof. solve_decision. Defined.

(** Object spread with overrides: [{ ...marker, latitude: lat, longitude: lng }]
    and [{ ...marker, icon: iconUrl }]. *)
Definition withPosition (lat lng : float) (marker : MapMarker) : MapMarker :=
  {| id := id marker; latitude := lat; longitude := lng;
     name := name marker; icon := icon marker; extra := extra marker |}.

Definition withIcon (iconUrl : string) (marker : MapMarker) : MapMarker :=
  {| id := id marker; latitude := latitude marker; longitude := longitude marker;
     name := name marker; icon := Some iconUrl; extra := extra marker |}.

(** ** Outcomes of running a piece of JavaScript *)

Inductive JsError : Type := TypeError.

Inductive completion (A : Type) : Type :=
  | Normal (a : A)
  | Throw (e : JsError).
Arguments Normal {A} a.
Arguments Throw {A} e.

#[export] Instance completion_ret : MRet completion := λ A a, Normal a.

#[export] Instance completion_bind : MBind completion := λ A B k c,
  match c with
  | Normal a => k a
  | Throw e => Throw e
  end.

(** ** Array methods used by [App.tsx] *)

(** [arr.indexOf(x)]: position of the first element identical to [x], or
    [-1].  No handler mutates a marker object, so an object is rendered by
    its contents and identity by equality of contents.  Identity also
    tells apart two objects of equal contents; [indexOf_scan_pick] below
    shows that the one call of [indexOf] is not affected, its argument
    being read from the first slot with these contents. *)
Definition indexOf (x : MapMarker) (arr : list MapMarker) : Z :=
  match list_find (λ y, y = x) arr with
  | Some (i, _) => Z.of_nat i
  | None => (-1)%Z
  end.

(** [arr.splice(start, deleteCount)], as the array left behind: a negative
    [start] counts from the end, and the count is clamped to what is there. *)
Definition splice {A} (start deleteCount : Z) (arr : list A) : list A :=
  let len := Z.of_nat (length arr) in
  let actualStart :=
    if (start <? 0)%Z then Z.max (len + start) 0 else Z.min start len in
  let actualDeleteCount := Z.min (Z.max deleteCount 0) (len - actualStart) in
  take (Z.to_nat actualStart) arr
    ++ drop (Z.to_nat (actualStart + actualDeleteCount)) arr.

(** [arr.find(pred)]: the first element satisfying [pred], if any. *)
Definition find {A} (P : A → Prop) `{!∀ x, Decision (P x)} (arr : list A) : option A :=
  snd <$> list_find P arr.

(** [arr.some(pred)]. *)
Definition some {A} (P : A → Prop) `{!∀ x, Decision (P x)} (arr : list A) : bool :=
  bool_decide (Exists P arr).

(** Truthiness of a [string | null]: [null] and the empty string are falsy. *)
Definition truthy (v : option string) : bool :=
  match v with
  | Some s => bool_decide (s ≠ "")
  | None => false
  end.

(** ** The [Math] object

    ECMAScript asks of these functions an approximation of the
    implementation's choosing, so the model takes them as given. *)
Class MathLib : Type := {
  Math_sin : float → float;
  Math_cos : float → float;
  Math_atan2 : float → float → float;
  Math_sqrt : float → float
}.

(** [Math.PI], the binary64 number nearest to pi. *)
Definition Math_PI : float := 0x1.921fb54442d18p+1%float.

(** ** Application state

    The five [useState] cells of [App]. *)
Record AppState : Type := mkState {
  markers : list MapMarker;
  selectedMarkers : list MapMarker;
  isDrawing : bool;
  optimizedRoute : option (list MapMarker);
  startMarkerId : option string
}.

Definition setMarkers (v : list MapMarker) (s : AppState) : AppState :=
  {| markers := v; selectedMarkers := selectedMarkers s; isDrawing := isDrawing s;
     optimizedRoute := optimizedRoute s; startMarkerId := startMarkerId s |}.

Definition setSelectedMarkers (v : list MapMarker) (s : AppState) : AppState :=
  {| markers := markers s; selectedMarkers := v; isDrawing := isDrawing s;
     optimizedRoute := optimizedRoute s; startMarkerId := startMarkerId s |}.

Definition setIsDrawing (v : bool) (s : AppState) : AppState :=
  {| markers := markers s; selectedMarkers := selectedMarkers s; isDrawing := v;
     optimizedRoute := optimizedRoute s; startMarkerId := startMarkerId s |}.

Definition setOptimizedRoute (v : option (list MapMarker)) (s : AppState) : AppState :=
  {| markers := markers s; selectedMarkers := selectedMarkers s;
     isDrawing := isDrawing s; optimizedRoute := v;
     startMarkerId := startMarkerId s |}.

Definition setStartMarkerId (v : option string) (s : AppState) : AppState :=
  {| markers := markers s; selectedMarkers := selectedMarkers s;
     isDrawing := isDrawing s; optimizedRoute := optimizedRoute s;
     startMarkerId := v |}.

(** The state of the first render. *)
Definition initialState : AppState :=
  {| markers := []; selectedMarkers := []; isDrawing := false;
     optimizedRoute := None; startMarkerId := None |}.

(** ** The handlers of [App] *)

Section App.

Context {M : MathLib}.

Local Open Scope float_scope.

Definition toRad (value : float) : float := value * Math_PI / 180.

Definition getDistance (point1 point2 : MapMarker) : float :=
  let lat1 := latitude point1 in
  let lon1 := longitude point1 in
  let lat2 := latitude point2 in
  let lon2 := longitude point2 in
  let R := 6371 in
  let dLat := toRad (lat2 - lat1) in
  let dLon := toRad (lon2 - lon1) in
  let a :=
    Math_sin (dLat / 2) * Math_sin (dLat / 2) +
    Math_cos (toRad lat1) * Math_cos (toRad lat2) *
    Math_sin (dLon / 2) * Math_sin (dLon / 2) in
  let c := 2 * Math_atan2 (Math_sqrt a) (Math_sqrt (1 - a)) in
  R * c.

(** The [for] loop of [calculateOptimizedRoute], from index 1 on: [rest]
    is what is left to visit of [remainingMarkers], and the two
    accumulators are the loop's [nearestMarker] and [minDistance]. *)
Fixpoint scanNearest (currentPoint : MapMarker) (rest : list MapMarker)
    (nearestMarker : MapMarker) (minDistance : float) : MapMarker * float :=
  match rest with
  | [] => (nearestMarker, minDistance)
  | candidate :: rest' =>
      let distance := getDistance currentPoint candidate in
      if distance <? minDistance
      then scanNearest currentPoint rest' candidate distance
      else scanNearest currentPoint rest' nearestMarker minDistance
  end.

Local Close Scope float_scope.

(** One removal always shortens a non-empty array, whatever [indexOf]
    returned: this is what makes the [while] loop terminate. *)
Lemma splice_one_shorter (x : MapMarker) (arr : list MapMarker) :
  arr ≠ [] → length (splice (indexOf x arr) 1 arr) < length arr.
Proof.
  intros Hne. assert (0 < length arr) as Hlen by (destruct arr; simpl; [done | lia]).
  assert (-1 ≤ indexOf x arr < Z.of_nat (length arr))%Z as Hi.
  { unfold indexOf. destruct (list_find _ arr) as [[i y]|] eqn:E; [|lia].
    apply list_find_Some in E as (Hl & _). apply lookup_lt_Some in Hl. lia. }
  unfold splice. rewrite length_app, length_take, length_drop.
  destruct (indexOf x arr <? 0)%Z eqn:E; lia.
Qed.

(** The [while (remainingMarkers.length > 0)] loop.  Reading
    [route[route.length - 1]] of an empty route gives [undefined], whose
    [latitude] cannot be read. *)
Equations? nearestNeighbourLoop (route remainingMarkers : list MapMarker)
  : completion (list MapMarker) by wf (length remainingMarkers) lt :=
nearestNeighbourLoop route [] := Normal route;
nearestNeighbourLoop route (first :: others) with last route := {
  | None := Throw TypeError
  | Some currentPoint :=
      let nearestMarker :=
        fst (scanNearest currentPoint others first
               (getDistance currentPoint first)) in
      nearestNeighbourLoop (route ++ [nearestMarker])
        (splice (indexOf nearestMarker (first :: others)) 1 (first :: others)) }.
Proof. by apply (splice_one_shorter _ (first :: others)). Qed.

Definition calculateOptimizedRoute (markers : list MapMarker) (startId : string)
  : completion (option (list MapMarker)) :=
  match find (λ m, id m = startId) markers with
  | None => Normal None
  | Some startMarker =>
      let remainingMarkers := filter (λ m, id m ≠ startId) markers in
      route ← nearestNeighbourLoop [startMarker] remainingMarkers;
      Normal (Some route)
  end.

Definition handleDataLoaded (newMarkers : list MapMarker) (s : AppState) : AppState :=
  setMarkers newMarkers s.

Definition handleMarkersSelected (selected : list MapMarker) (s : AppState) : AppState :=
  setIsDrawing false (setSelectedMarkers selected s).

Definition handleToggleDrawing (s : AppState) : AppState :=
  let s1 := setIsDrawing (negb (isDrawing s)) s in
  if negb (isDrawing s)
  then setStartMarkerId None (setOptimizedRoute None (setSelectedMarkers [] s1))
  else s1.

Definition handleOptimizeRoute (newStartMarkerId : option string) (s : AppState)
  : completion AppState :=
  let s1 := setStartMarkerId newStartMarkerId s in
  match newStartMarkerId with
  | Some startId =>
      if truthy newStartMarkerId then
        route ← calculateOptimizedRoute (selectedMarkers s) startId;
        Normal (setOptimizedRoute route s1)
      else Normal (setOptimizedRoute None s1)
  | None => Normal (setOptimizedRoute None s1)
  end.

Definition handleDelete (s : AppState) : AppState :=
  let selectedIds : gset string := list_to_set (id <$> selectedMarkers s) in
  setStartMarkerId None
    (setOptimizedRoute None
       (setSelectedMarkers []
          (setMarkers (filter (λ m, id m ∉ selectedIds) (markers s)) s))).

Definition handleMarkerMove (i : string) (lat lng : float) (s : AppState)
  : completion AppState :=
  let updatedMarkers :=
    (λ marker, if decide (id marker = i) then withPosition lat lng marker else marker)
      <$> markers s in
  let s1 := setMarkers updatedMarkers s in
  if some (λ m, id m = i) (selectedMarkers s) then
    let updatedSelected :=
      (λ marker, if decide (id marker = i) then withPosition lat lng marker else marker)
        <$> selectedMarkers s in
    let s2 := setSelectedMarkers updatedSelected s1 in
    match startMarkerId s with
    | Some startId =>
        if truthy (startMarkerId s) then
          newRoute ← calculateOptimizedRoute updatedSelected startId;
          Normal (setOptimizedRoute newRoute s2)
        else Normal s2
    | None => Normal s2
    end
  else Normal s1.

Definition handleUpdateIcons (iconUrl : string) (s : AppState) : AppState :=
  let selectedIds : gset string := list_to_set (id <$> selectedMarkers s) in
  setMarkers
    ((λ marker, if decide (id marker ∈ selectedIds)
                then withIcon iconUrl marker else marker) <$> markers s) s.

End App.

(** ** Vocabulary of the specification *)

Section Specification.

Context {M : MathLib}.

(** The pool of the specification: the input without the markers already
    placed, in input order. *)
Definition pool (input placed : list MapMarker) : list MapMarker :=
  filter (λ m, id m ∉ id <$> placed) input.

(** [x] is a nearest member of [pool] as seen from [cur], and the first
    such in the order of [pool]: no member is strictly nearer, and no
    member before [x] is as near. *)
Definition nearest_first (cur : MapMarker) (pool : list MapMarker) (x : MapMarker) : Prop :=
  ∃ i : nat,
    pool !! i = Some x
    ∧ (∀ q, q ∈ pool → (getDistance cur q <? getDistance cur x)%float = false)
    ∧ (∀ j q, j < i → pool !! j = Some q →
         (getDistance cur q <=? getDistance cur x)%float = false).



(** The value of the loop variable [i] at which the scan last replaced
    [nearestMarker] (0 when it never did): the slot the pick was read from. *)
Fixpoint scanNearestIndex (currentPoint : MapMarker) (rest : list MapMarker)
    (i nearestIndex : nat) (minDistance : float) : nat :=
  match rest with
  | [] => nearestIndex
  | candidate :: rest' =>
      let distance := getDistance currentPoint candidate in
      if (distance <? minDistance)%float
      then scanNearestIndex currentPoint rest' (S i) i distance
      else scanNearestIndex currentPoint rest' (S i) nearestIndex minDistance
  end.

End Specification.

(** ** The callers of the handlers *)

Section Wiring.

Context {M : MathLib}.

(** The listener [DrawControl] registers for a finished drawing
    ([Map.tsx]): the markers inside the drawn shape become the selection.
    The point-in-polygon test of the geometry library is a parameter, a
    function of the point [[longitude, latitude]] for the shape at hand. *)
Definition onDrawCreated (inside : float → float → bool) (s : AppState) : AppState :=
  let selected :=
    filter (λ marker, inside (longitude marker) (latitude marker) = true) (markers s) in
  handleMarkersSelected selected s.

(** What the children of [App] can ask of it, one constructor per callback
    prop handed down in its JSX. *)
Inductive Event : Type :=
  | DataLoaded (newMarkers : list MapMarker)
  | DrawCreated (inside : float → float → bool)
  | ToggleDrawing
  | OptimizeRoute (newStartMarkerId : option string)
  | Delete
  | MarkerMove (i : string) (lat lng : float)
  | UpdateIcons (iconUrl : string).

Definition dispatch (e : Event) (s : AppState) : completion AppState :=
  match e with
  | DataLoaded newMarkers => Normal (handleDataLoaded newMarkers s)
  | DrawCreated inside => Normal (onDrawCreated inside s)
  | ToggleDrawing => Normal (handleToggleDrawing s)
  | OptimizeRoute newStartMarkerId => handleOptimizeRoute newStartMarkerId s
  | Delete => Normal (handleDelete s)
  | MarkerMove i lat lng => handleMarkerMove i lat lng s
  | UpdateIcons iconUrl => Normal (handleUpdateIcons iconUrl s)
  end.

(** A session: the events in the order they arrive, each handled on the
    state the one before left. *)
Fixpoint run (es : list Event) (s : AppState) : completion AppState :=
  match es with
  | [] => Normal s
  | e :: es' => s' ← dispatch e s; run es' s'
  end.

End Wiring.

(** ** Invariants of the state *)

(** A stored route begins with a marker carrying the start id, and that id
    is truthy. *)
Definition route_anchored (s : AppState) : Prop :=
  ∀ r, optimizedRoute s = Some r →
    ∃ (startMarker : MapMarker) (tail : list MapMarker),
      r = startMarker :: tail
      ∧ startMarkerId s = Some (id startMarker)
      ∧ id startMarker ≠ "".

(** Ids are distinct in the collection and in the selection, and every
    selected id is the id of a marker of the collection. *)
Definition store_ok (s : AppState) : Prop :=
  NoDup (id <$> markers s)
  ∧ NoDup (id <$> selectedMarkers s)
  ∧ ∀ j, j ∈ id <$> selectedMarkers s → j ∈ id <$> markers s.

(** A stored route visits the selected markers, each once. *)
Definition route_covers_selection (s : AppState) : Prop :=
  ∀ r, optimizedRoute s = Some r → r ≡ₚ selectedMarkers s.

(** ** Sample data *)

(** A [Math] object to evaluate examples with: the leading terms of the
    power series, accurate for the small angles between nearby markers. *)
Definition SeriesMath : MathLib :=
  {| Math_sin := λ x, (x - x * x * x / 6 + x * x * x * x * x / 120)%float;
     Math_cos := λ x, (1 - x * x / 2 + x * x * x * x / 24)%float;
     Math_atan2 := λ y x,
       let t := (y / x)%float in (t - t * t * t / 3 + t * t * t * t * t / 5)%float;
     Math_sqrt := PrimFloat.sqrt |}.

(** Three markers on the equator, as an import names them. *)
Definition marker0 : MapMarker :=
  {| id := "marker-0"; latitude := 0; longitude := 0;
     name := Some "Location 1"; icon := None; extra := [] |}.

Definition marker1 : MapMarker :=
  {| id := "marker-1"; latitude := 0; longitude := 1;
     name := Some "Location 2"; icon := None; extra := [] |}.

Definition marker2 : MapMarker :=
  {| id := "marker-2"; latitude := 0; longitude := 3;
     name := Some "Location 3"; icon := None; extra := [] |}.

(** The only marker of a second file: imports number from zero again. *)
Definition depot : MapMarker :=
  {| id := "marker-0"; latitude := 10; longitude := 10;
     name := Some "Depot"; icon := None; extra := [] |}.

(** All three markers loaded, selected, and routed from [marker1]. *)
Definition routedState : AppState :=
  {| markers := [marker0; marker1; marker2];
     selectedMarkers := [marker0; marker1; marker2];
     isDrawing := false;
     optimizedRoute := Some [marker1; marker0; marker2];
     startMarkerId := Some "marker-1" |}.

(** The three markers still selected over a collection that a later import
    replaced. *)
Definition staleState : AppState :=
  {| markers := [depot];
     selectedMarkers := [marker0; marker1; marker2];
     isDrawing := false;
     optimizedRoute := None;
     startMarkerId := None |}.

(** A marker tagged once and selected afterwards. *)
Definition taggedState : AppState :=
  {| markers := [withIcon "pin.png" marker0; marker1];
     selectedMarkers := [withIcon "pin.png" marker0];
     isDrawing := false;
     optimizedRoute := None;
     startMarkerId := None |}.

(** [table] where it has an entry for the argument, [f] elsewhere. *)
Fixpoint tabulated (table : list (float * float)) (f : float → float) (x : float) : float :=
  match table with
  | [] => f x
  | (arg, value) :: table' =>
      if PrimFloat.Leibniz.eqb x arg then value else tabulated table' f x
  end.

(** A [Math] object for the polar markers below: at the arguments their
    distances evaluate, [sin], [cos] and [atan2] return the binary64 number
    nearest to the exact value; elsewhere it is [SeriesMath]. *)
Definition PolarMath : MathLib :=
  {| Math_sin :=
       tabulated
         [ (0x1.86f4291ecf2f3p+0, 0x1.ff833f9da45f7p-1);
           (0x1.921fb54442d18p+0, 1);
           (0x1.1df46a2529d39p-8, 0x1.1df42eae296e2p-8);
           (-0x1.85d634b4aa057p+0, -0x1.ff690e433affap-1);
           (-0x1.921fb54442d18p+0, -1) ]%float
         (@Math_sin SeriesMath);
     Math_cos :=
       tabulated
         [ (0x1.86f4291ecf2f3p+0, 0x1.65547c4694e32p-5);
           (-0x1.86f4291ecf2f3p+0, 0x1.65547c4694e32p-5);
           (-0x1.84b8404a84db9p+0, 0x1.acbc748efc921p-5) ]%float
         (@Math_cos SeriesMath);
     Math_atan2 := λ y x,
       if (PrimFloat.Leibniz.eqb y 0x1.1df42eae296e2p-8
           && PrimFloat.Leibniz.eqb x 0x1.fffec0960384ep-1)%float
       then 0x1.1df46a2529d39p-8%float
       else if (PrimFloat.Leibniz.eqb y 0x1.fffec0960384ep-1
                && PrimFloat.Leibniz.eqb x 0x1.1df42eae274d4p-8)%float
       then 0x1.9101c0da1da9dp+0%float
       else @Math_atan2 SeriesMath y x;
     Math_sqrt := PrimFloat.sqrt |}.

(** Three markers near the poles: [polarB] is almost opposite [polarA] on
    the globe, [polarC] is half a degree from [polarA]. *)
Definition polarA : MapMarker :=
  {| id := "marker-0"; latitude := -87.5; longitude := -179;
     name := Some "Location 1"; icon := None; extra := [] |}.

Definition polarB : MapMarker :=
  {| id := "marker-1"; latitude := 87.5; longitude := 1;
     name := Some "Location 2"; icon := None; extra := [] |}.

Definition polarC : MapMarker :=
  {| id := "marker-2"; latitude := -87; longitude := -179;
     name := Some "Location 3"; icon := None; extra := [] |}.

(** A marker whose id is the empty string, as a feature with such an [id]
    among its properties gives. *)
Definition blankIdMarker : MapMarker :=
  {| id := ""; latitude := 0; longitude := 2;
     name := Some "Location 1"; icon := None; extra := [] |}.

(** [blankIdMarker] and [marker1] loaded and selected, and the former
    designated as start. *)
Definition blankStartState : AppState :=
  {| markers := [blankIdMarker; marker1];
     selectedMarkers := [blankIdMarker; marker1];
     isDrawing := false;
     optimizedRoute := None;
     startMarkerId := Some "" |}.

(** A session on [routedState] that ends with a route stored: drag, tag,
    load a second file, designate another start. *)
Definition routedSession : list Event :=
  [ MarkerMove "marker-2" 0 1.5;
    UpdateIcons "pin.png";
    DataLoaded [depot];
    OptimizeRoute (Some "marker-0") ].

(** A region test: west of the meridian of two degrees. *)
Definition westOfTwo (lon lat : float) : bool := (lon <? 2)%float.

(** A session: load, draw a region, route, drag, tag, delete. *)
Definition sampleSession : list Event :=
  [ DataLoaded [marker0; marker1; marker2];
    ToggleDrawing;
    DrawCreated westOfTwo;
    OptimizeRoute (Some "marker-1");
    MarkerMove "marker-0" 0 0.5;
    UpdateIcons "pin.png";
    Delete ].

(** * Properties *)

(** ** Ordering of JavaScript numbers

    The optimiser compares distances with [<].  On binary64 this is a strict
    partial order: not-a-number is incomparable with everything. *)

Module JsNumber.

Ltac order_cases :=
  repeat match goal with
    | |- context [Pos.compare_cont Eq ?a ?b] =>
        change (Pos.compare_cont Eq a b) with (a ?= b)%positive
    | H : context [Pos.compare_cont Eq ?a ?b] |- _ =>
        change (Pos.compare_cont Eq a b) with (a ?= b)%positive in H
    end;
  repeat match goal with
    | H : context [(?a ?= ?b)%Z] |- _ =>
        destruct (Z.compare_spec a b); simpl in H; try discriminate H
    | H : context [(?a ?= ?b)%positive] |- _ =>
        destruct (Pos.compare_spec a b); simpl in H; try discriminate H
    end;
  subst;
  repeat match goal with
    | |- context [(?a ?= ?b)%Z] => destruct (Z.compare_spec a b)
    | |- context [(?a ?= ?b)%positive] => destruct (Pos.compare_spec a b)
    end;
  simpl; try reflexivity; try discriminate; try lia.

Lemma SFcompare_Lt_trans x y z :
  SFcompare x y = Some Lt → SFcompare y z = Some Lt → SFcompare x z = Some Lt.
Proof.
  destruct x as [[]|[]| |[] m1 e1], y as [[]|[]| |[] m2 e2],
           z as [[]|[]| |[] m3 e3];
    simpl; intros Hxy Hyz; try discriminate; try reflexivity;
    injection Hxy as Hxy; injection Hyz as Hyz; f_equal; order_cases.
Qed.

Lemma SFcompare_Eq_Lt_trans x y z :
  SFcompare x y = Some Eq → SFcompare y z = Some Lt → SFcompare x z = Some Lt.
Proof.
  destruct x as [[]|[]| |[] m1 e1], y as [[]|[]| |[] m2 e2],
           z as [[]|[]| |[] m3 e3];
    simpl; intros Hxy Hyz; try discriminate; try reflexivity;
    injection Hxy as Hxy; injection Hyz as Hyz; f_equal; order_cases.
Qed.

Lemma SFcompare_irrefl x : SFcompare x x ≠ Some Lt.
Proof.
  destruct x as [[]|[]| |[] m e]; simpl; try discriminate;
    rewrite Z.compare_refl; change (Pos.compare_cont Eq m m) with (m ?= m)%positive;
    rewrite Pos.compare_refl; discriminate.
Qed.

(** [x < x] is false for every number. *)
Lemma ltb_irrefl (x : float) : (x <? x)%float = false.
Proof.
  rewrite ltb_spec. unfold SFltb.
  pose proof (SFcompare_irrefl (Prim2SF x)) as H.
  destruct (SFcompare (Prim2SF x) (Prim2SF x)) as [[]|]; congruence.
Qed.

(** [<] is transitive. *)
Lemma ltb_trans (x y z : float) :
  (x <? y)%float = true → (y <? z)%float = true → (x <? z)%float = true.
Proof.
  rewrite !ltb_spec. unfold SFltb. intros Hxy Hyz.
  destruct (SFcompare (Prim2SF x) (Prim2SF y)) as [[]|] eqn:E1; try discriminate.
  destruct (SFcompare (Prim2SF y) (Prim2SF z)) as [[]|] eqn:E2; try discriminate.
  by rewrite (SFcompare_Lt_trans _ _ _ E1 E2).
Qed.

(** [x <= y] and [y < z] give [x < z]. *)
Lemma leb_ltb_trans (x y z : float) :
  (x <=? y)%float = true → (y <? z)%float = true → (x <? z)%float = true.
Proof.
  rewrite leb_spec, !ltb_spec. unfold SFleb, SFltb. intros Hxy Hyz.
  destruct (SFcompare (Prim2SF y) (Prim2SF z)) as [[]|] eqn:E2; try discriminate.
  destruct (SFcompare (Prim2SF x) (Prim2SF y)) as [[]|] eqn:E1; try discriminate.
  - by rewrite (SFcompare_Eq_Lt_trans _ _ _ E1 E2).
  - by rewrite (SFcompare_Lt_trans _ _ _ E1 E2).
Qed.

(** [x < y] implies [x <= y]. *)
Lemma ltb_leb (x y : float) : (x <? y)%float = true → (x <=? y)%float = true.
Proof.
  rewrite leb_spec, ltb_spec. unfold SFleb, SFltb.
  by destruct (SFcompare (Prim2SF x) (Prim2SF y)) as [[]|].
Qed.

(** Away from not-a-number the order is total. *)
Lemma leb_total (x y : float) :
  is_nan x = false → is_nan y = false →
  (x <? y)%float = false → (y <=? x)%float = true.
Proof.
  unfold is_nan. rewrite !FloatAxioms.eqb_spec, ltb_spec, leb_spec.
  unfold SFeqb, SFltb, SFleb.
  destruct (Prim2SF x) as [[]|[]| |[] m1 e1], (Prim2SF y) as [[]|[]| |[] m2 e2];
    simpl; rewrite ?Z.compare_refl, ?Pos.compare_cont_refl; simpl;
    intros Hx Hy H; try discriminate; try reflexivity;
    change (Pos.compare_cont Eq m1 m2) with (m1 ?= m2)%positive in *;
    change (Pos.compare_cont Eq m2 m1) with (m2 ?= m1)%positive;
    rewrite (Z.compare_antisym e1 e2), (Pos.compare_antisym m1 m2);
    destruct (e1 ?= e2)%Z; simpl in *; try discriminate; try reflexivity;
    destruct (m1 ?= m2)%positive; simpl in *; try discriminate; reflexivity.
Qed.

(** Away from not-a-number, [x <= y] failing means [y < x]. *)
Lemma ltb_total (x y : float) :
  is_nan x = false → is_nan y = false →
  (x <=? y)%float = false → (y <? x)%float = true.
Proof.
  unfold is_nan. rewrite !FloatAxioms.eqb_spec, ltb_spec, leb_spec.
  unfold SFeqb, SFltb, SFleb.
  destruct (Prim2SF x) as [[]|[]| |[] m1 e1], (Prim2SF y) as [[]|[]| |[] m2 e2];
    simpl; rewrite ?Z.compare_refl, ?Pos.compare_cont_refl; simpl;
    intros Hx Hy H; try discriminate; try reflexivity;
    change (Pos.compare_cont Eq m1 m2) with (m1 ?= m2)%positive in *;
    change (Pos.compare_cont Eq m2 m1) with (m2 ?= m1)%positive;
    rewrite (Z.compare_antisym e1 e2), (Pos.compare_antisym m1 m2);
    destruct (e1 ?= e2)%Z; simpl in *; try discriminate; try reflexivity;
    destruct (m1 ?= m2)%positive; simpl in *; try discriminate; reflexivity.
Qed.

End JsNumber.

(** ** The nearest-neighbour scan *)

Section Scan.

Context {M : MathLib}.

Lemma scanNearest_inv (cur : MapMarker) (rest : list MapMarker) :
  ∀ (seen : list MapMarker) (nm : MapMarker) (b : nat),
    seen !! b = Some nm →
    (∀ q, q ∈ seen → (getDistance cur q <? getDistance cur nm)%float = false) →
    (∀ j q, j < b → seen !! j = Some q →
       (getDistance cur q <=? getDistance cur nm)%float = false) →
    nearest_first cur (seen ++ rest)
      (fst (scanNearest cur rest nm (getDistance cur nm))).
Proof.
  induction rest as [|cand rest IH]; intros seen nm b Hb Hmin Hfirst.
  - simpl. rewrite app_nil_r. by exists b.
  - simpl. replace (seen ++ cand :: rest) with ((seen ++ [cand]) ++ rest)
      by (by rewrite <- app_assoc).
    destruct (getDistance cur cand <? getDistance cur nm)%float eqn:Hlt.
    + apply (IH _ _ (length seen)).
      * by rewrite lookup_app_r, Nat.sub_diag by lia.
      * intros q [Hq | Hq%list_elem_of_singleton]%elem_of_app.
        -- destruct (getDistance cur q <? getDistance cur cand)%float eqn:E; [|done].
           rewrite <- (Hmin q Hq). symmetry. eapply JsNumber.ltb_trans; eauto.
        -- subst q. apply JsNumber.ltb_irrefl.
      * intros j q Hj Hq. rewrite lookup_app_l in Hq by done.
        destruct (getDistance cur q <=? getDistance cur cand)%float eqn:E; [|done].
        rewrite <- (Hmin q) by (by eapply list_elem_of_lookup_2).
        symmetry. eapply JsNumber.leb_ltb_trans; eauto.
    + apply (IH _ _ b).
      * rewrite lookup_app_l; [done | by eapply lookup_lt_Some].
      * intros q [Hq | Hq%list_elem_of_singleton]%elem_of_app; [by apply Hmin|by subst].
      * intros j q Hj Hq. apply (Hfirst j); [done|].
        apply lookup_lt_Some in Hb.
        rewrite lookup_app_l in Hq; [done | lia].
Qed.

(** What one pass of the [for] loop leaves in [nearestMarker]. *)
Lemma scanNearest_nearest_first (cur first : MapMarker) (others : list MapMarker) :
  nearest_first cur (first :: others)
    (fst (scanNearest cur others first (getDistance cur first))).
Proof.
  apply (scanNearest_inv cur others [first] first 0).
  - done.
  - intros q ->%list_elem_of_singleton. apply JsNumber.ltb_irrefl.
  - intros j q Hj. lia.
Qed.

(** [indexOf] finds the marker the scan chose, and at a position where
    the scan's guarantees hold. *)
Lemma indexOf_nearest (cur x : MapMarker) (pool : list MapMarker) :
  nearest_first cur pool x →
  ∃ i : nat, indexOf x pool = Z.of_nat i ∧ pool !! i = Some x
    ∧ (∀ j q, j < i → pool !! j = Some q →
         (getDistance cur q <=? getDistance cur x)%float = false).
Proof.
  intros (b & Hb & _ & Hfirst). unfold indexOf.
  destruct (list_find (λ y, y = x) pool) as [[i y]|] eqn:E.
  - apply list_find_Some in E as (Hi & -> & Hbefore).
    exists i. split_and!; [done..|].
    intros j q Hj Hq. apply (Hfirst j); [|done].
    destruct (decide (b < i)) as [Hlt|]; [|lia].
    by destruct (Hbefore b x Hb Hlt).
  - apply list_find_None in E. rewrite Forall_forall in E.
    destruct (E x); [by eapply list_elem_of_lookup_2 | done].
Qed.

Lemma scanNearestIndex_inv (cur : MapMarker) (rest : list MapMarker) :
  ∀ (seen : list MapMarker) (nm : MapMarker) (b : nat),
    seen !! b = Some nm →
    (∀ q, q ∈ seen → (getDistance cur q <? getDistance cur nm)%float = false) →
    (∀ j q, j < b → seen !! j = Some q → q ≠ nm) →
    let x := fst (scanNearest cur rest nm (getDistance cur nm)) in
    let b' := scanNearestIndex cur rest (length seen) b (getDistance cur nm) in
    (seen ++ rest) !! b' = Some x
    ∧ ∀ j q, j < b' → (seen ++ rest) !! j = Some q → q ≠ x.
Proof.
  induction rest as [|cand rest IH]; intros seen nm b Hb Hmin Hfirst.
  - simpl. rewrite app_nil_r. split; [done|]. exact Hfirst.
  - simpl. replace (seen ++ cand :: rest) with ((seen ++ [cand]) ++ rest)
      by (by rewrite <- app_assoc).
    replace (S (length seen)) with (length (seen ++ [cand]))
      by (rewrite length_app; simpl; lia).
    destruct (getDistance cur cand <? getDistance cur nm)%float eqn:Hlt.
    + apply IH.
      * by rewrite lookup_app_r, Nat.sub_diag by lia.
      * intros q [Hq | Hq%list_elem_of_singleton]%elem_of_app.
        -- destruct (getDistance cur q <? getDistance cur cand)%float eqn:E; [|done].
           rewrite <- (Hmin q Hq). symmetry. eapply JsNumber.ltb_trans; eauto.
        -- subst q. apply JsNumber.ltb_irrefl.
      * intros j q Hj Hq ->. rewrite lookup_app_l in Hq by done.
        rewrite (Hmin cand) in Hlt; [done | by eapply list_elem_of_lookup_2].
    + apply IH.
      * rewrite lookup_app_l; [done | by eapply lookup_lt_Some].
      * intros q [Hq | Hq%list_elem_of_singleton]%elem_of_app; [by apply Hmin|by subst].
      * intros j q Hj Hq. apply (Hfirst j); [done|].
        apply lookup_lt_Some in Hb.
        rewrite lookup_app_l in Hq; [done | lia].
Qed.

(** [indexOf] returns the slot the scan read its pick from: no earlier
    slot holds a marker of the same contents. *)
Lemma indexOf_scan_pick (cur first : MapMarker) (others : list MapMarker) :
  let x := fst (scanNearest cur others first (getDistance cur first)) in
  let b := scanNearestIndex cur others 1 0 (getDistance cur first) in
  (first :: others) !! b = Some x
  ∧ indexOf x (first :: others) = Z.of_nat b.
Proof.
  destruct (scanNearestIndex_inv cur others [first] first 0) as [Hb Hfirst].
  - done.
  - intros q ->%list_elem_of_singleton. apply JsNumber.ltb_irrefl.
  - intros j q Hj. lia.
  - simpl in *. split; [done|]. unfold indexOf.
    erewrite (proj2 (list_find_Some _ _ _ _)); [done|].
    split_and!; [exact Hb | done |]. intros j q Hq Hj. by apply (Hfirst j).
Qed.

Lemma splice_one_delete {A} (i : nat) (arr : list A) :
  i < length arr → splice (Z.of_nat i) 1 arr = delete i arr.
Proof.
  intros Hi. unfold splice.
  destruct (Z.of_nat i <? 0)%Z eqn:E; [lia|].
  rewrite Z.min_l by lia.
  replace (Z.min (Z.max 1 0) (Z.of_nat (length arr) - Z.of_nat i)) with 1%Z by lia.
  rewrite Nat2Z.id. replace (Z.to_nat (Z.of_nat i + 1)) with (S i) by lia.
  by rewrite delete_take_drop.
Qed.

(** When no distance to a pool member is not-a-number, the chosen marker
    is at the least distance, and strictly nearer than every member ahead
    of it. *)
Lemma nearest_first_least (cur : MapMarker) (pool : list MapMarker) (x : MapMarker) :
  nearest_first cur pool x →
  (∀ q, q ∈ pool → is_nan (getDistance cur q) = false) →
  ∃ i : nat,
    pool !! i = Some x
    ∧ (∀ q, q ∈ pool → (getDistance cur x <=? getDistance cur q)%float = true)
    ∧ (∀ j q, j < i → pool !! j = Some q →
         (getDistance cur x <? getDistance cur q)%float = true).
Proof.
  intros (i & Hi & Hmin & Hfirst) Hnan. exists i.
  assert (x ∈ pool) as Hx by (by eapply list_elem_of_lookup_2).
  split_and!; [done|..].
  - intros q Hq. apply JsNumber.leb_total; auto.
  - intros j q Hj Hq. apply JsNumber.ltb_total; eauto using list_elem_of_lookup_2.
Qed.

End Scan.

(** ** The route optimiser *)

Lemma filter_all {A} (P : A → Prop) `{!∀ x, Decision (P x)} (l : list A) :
  Forall P l → filter P l = l.
Proof.
  induction 1 as [|x l Hx _ IH]; [done|].
  by rewrite filter_cons, decide_True, IH.
Qed.

Section RouteOptimizer.

Context {M : MathLib}.

(** One turn of the [while] loop. *)
Lemma nearestNeighbourLoop_step (route : list MapMarker) (cur first : MapMarker)
    (others : list MapMarker) :
  last route = Some cur →
  ∃ (x : MapMarker) (i : nat),
    nearest_first cur (first :: others) x
    ∧ (first :: others) !! i = Some x
    ∧ (∀ j q, j < i → (first :: others) !! j = Some q →
         (getDistance cur q <=? getDistance cur x)%float = false)
    ∧ nearestNeighbourLoop route (first :: others)
      = nearestNeighbourLoop (route ++ [x]) (delete i (first :: others)).
Proof.
  intros Hlast.
  pose proof (scanNearest_nearest_first cur first others) as Hnf.
  destruct (indexOf_nearest _ _ _ Hnf) as (i & Hidx & Hi & Hbefore).
  eexists _, i. split_and!; [exact Hnf | exact Hi | exact Hbefore |].
  simp nearestNeighbourLoop. rewrite Hlast. simpl.
  rewrite Hidx, splice_one_delete; [done | by eapply lookup_lt_Some].
Qed.

(** The loop always runs to completion, keeps what is already in the
    route, and appends the remaining markers in some order. *)
Lemma nearestNeighbourLoop_perm (remainingMarkers : list MapMarker) :
  ∀ route, route ≠ [] →
    ∃ tail, nearestNeighbourLoop route remainingMarkers = Normal (route ++ tail)
            ∧ tail ≡ₚ remainingMarkers.
Proof.
  remember (length remainingMarkers) as n eqn:Hn.
  revert remainingMarkers Hn.
  induction n as [|n IH]; intros [|first others] Hn route Hne; simplify_eq/=.
  - exists []. simp nearestNeighbourLoop. by rewrite app_nil_r.
  - destruct (last route) as [cur|] eqn:Hlast;
      [|by apply last_None in Hlast].
    destruct (nearestNeighbourLoop_step route cur first others Hlast)
      as (x & i & _ & Hi & _ & ->).
    destruct (IH (delete i (first :: others))) with (route := route ++ [x])
      as (tail & -> & Hperm).
    + rewrite length_delete by eauto. simpl. lia.
    + by destruct route.
    + exists (x :: tail). split; [by rewrite <- app_assoc|].
      rewrite Hperm. symmetry. by apply delete_Permutation.
Qed.

Lemma find_id_Some (ms : list MapMarker) (startId : string) :
  startId ∈ id <$> ms →
  ∃ startMarker, find (λ m, id m = startId) ms = Some startMarker
                 ∧ startMarker ∈ ms ∧ id startMarker = startId.
Proof.
  intros (m & Hid & Hm)%list_elem_of_fmap. unfold find.
  destruct (list_find (λ m, id m = startId) ms) as [[i y]|] eqn:E.
  - apply list_find_Some in E as (Hi & Hy & _).
    exists y. split_and!; [done | by eapply list_elem_of_lookup_2 | done].
  - apply list_find_None in E. rewrite Forall_forall in E. by destruct (E m).
Qed.

Lemma find_id_None (ms : list MapMarker) (startId : string) :
  startId ∉ id <$> ms → find (λ m, id m = startId) ms = None.
Proof.
  intros Hnot. unfold find.
  destruct (list_find (λ m, id m = startId) ms) as [[i y]|] eqn:E; [|done].
  apply list_find_Some in E as (Hi & Hy & _). destruct Hnot.
  apply list_elem_of_fmap. exists y. split; [done | by eapply list_elem_of_lookup_2].
Qed.

(** With distinct ids, dropping the markers of one id drops one marker. *)
Lemma filter_other_ids (ms : list MapMarker) (x : MapMarker) :
  NoDup (id <$> ms) → x ∈ ms →
  x :: filter (λ m, id m ≠ id x) ms ≡ₚ ms.
Proof.
  induction ms as [|m ms IH]; intros Hnd Hx; [by apply elem_of_nil in Hx|].
  rewrite fmap_cons in Hnd. apply NoDup_cons in Hnd as [Hm Hnd].
  rewrite filter_cons. apply elem_of_cons in Hx as [-> | Hx].
  - rewrite decide_False by (intros H; by apply H).
    f_equiv. rewrite filter_all; [done|].
    apply Forall_forall. intros y Hy Heq. destruct Hm. rewrite <- Heq.
    apply list_elem_of_fmap. by exists y.
  - rewrite decide_True.
    + rewrite Permutation_swap. f_equiv. by apply IH.
    + intros Heq. destruct Hm. rewrite Heq. apply list_elem_of_fmap. by exists x.
Qed.

(** With distinct ids, deleting a position is the same as filtering out
    its id. *)
Lemma filter_id_delete (l : list MapMarker) (i : nat) (x : MapMarker) :
  NoDup (id <$> l) → l !! i = Some x →
  filter (λ m, id m ≠ id x) l = delete i l.
Proof.
  revert i. induction l as [|m l IH]; intros i Hnd Hi; [done|].
  rewrite fmap_cons in Hnd. apply NoDup_cons in Hnd as [Hm Hnd].
  rewrite filter_cons. destruct i as [|i]; simplify_eq/=.
  - rewrite decide_False by (intros H; by apply H).
    apply filter_all, Forall_forall.
    intros y Hy Heq. destruct Hm. rewrite <- Heq. apply list_elem_of_fmap. by exists y.
  - rewrite decide_True.
    + f_equal. by apply IH.
    + intros Heq. destruct Hm. rewrite Heq. apply list_elem_of_fmap.
      exists x. split; [done | by eapply list_elem_of_lookup_2].
Qed.

Lemma pool_snoc (input route : list MapMarker) (i : nat) (x : MapMarker) :
  NoDup (id <$> input) → pool input route !! i = Some x →
  pool input (route ++ [x]) = delete i (pool input route).
Proof.
  intros Hnd Hi. rewrite <- (filter_id_delete _ i x); [|..|done].
  - unfold pool. rewrite list_filter_filter. apply list_filter_iff.
    intros m. rewrite fmap_app, elem_of_app. simpl.
    rewrite list_elem_of_singleton. tauto.
  - eapply sublist_NoDup; [exact Hnd|]. apply fmap_sublist, sublist_filter.
Qed.

(** Every marker the loop appends is the nearest, first in pool order,
    of what was still to place. *)
Lemma nearestNeighbourLoop_greedy (input : list MapMarker) :
  NoDup (id <$> input) →
  ∀ (n : nat) (route tail : list MapMarker),
    length (pool input route) = n →
    route ≠ [] →
    nearestNeighbourLoop route (pool input route) = Normal (route ++ tail) →
    ∀ k prev x,
      length route ≤ S k →
      (route ++ tail) !! k = Some prev →
      (route ++ tail) !! S k = Some x →
      nearest_first prev (pool input (take (S k) (route ++ tail))) x.
Proof.
  intros Hnd. induction n as [|n IH]; intros route tail Hn Hne Hloop k prev x Hk Hprev Hx.
  - apply nil_length_inv in Hn. rewrite Hn in Hloop.
    simp nearestNeighbourLoop in Hloop.
    injection Hloop as Hloop. rewrite <- (app_nil_r route) in Hloop at 1.
    apply app_inv_head in Hloop. subst tail.
    rewrite app_nil_r in Hx. apply lookup_lt_Some in Hx. lia.
  - destruct (pool input route) as [|first others] eqn:Hpool; [done|].
    destruct (last route) as [cur|] eqn:Hlast; [|by apply last_None in Hlast].
    destruct (nearestNeighbourLoop_step route cur first others Hlast)
      as (y & i & Hnf & Hi & _ & Hstep).
    rewrite Hstep in Hloop. rewrite <- Hpool in Hi.
    rewrite <- Hpool, <- (pool_snoc input route i y Hnd Hi) in Hloop.
    destruct (nearestNeighbourLoop_perm (pool input (route ++ [y])) (route ++ [y]))
      as (tail' & Hloop' & _); [by destruct route|].
    assert (tail = y :: tail') as ->.
    { rewrite Hloop' in Hloop. injection Hloop as Hloop.
      rewrite <- app_assoc in Hloop. by apply app_inv_head in Hloop. }
    destruct (decide (S k = length route)) as [Hlen|Hlen].
    + rewrite take_app_length' by done. rewrite Hpool.
      rewrite lookup_app_l in Hprev by lia.
      rewrite last_lookup in Hlast.
      replace (pred (length route)) with k in Hlast by lia.
      rewrite lookup_app_r, Hlen, Nat.sub_diag in Hx by lia.
      by simplify_eq/=.
    + replace (route ++ y :: tail') with ((route ++ [y]) ++ tail') in *
        by (by rewrite <- app_assoc).
      apply (IH (route ++ [y]) tail'); try done.
      * rewrite (pool_snoc input route i y Hnd Hi), length_delete by eauto.
        rewrite Hpool. simpl in *. lia.
      * by destruct route.
      * rewrite length_app. simpl. lia.
Qed.

(** C2. For an input whose markers have pairwise distinct ids and a start
    id carried by one of them (so the input is not empty), the optimiser
    returns a route: it begins with the marker of the start id, it is a
    rearrangement of the input (hence the same ids, none twice, and the
    same length). *)
Theorem calculateOptimizedRoute_permutation (ms : list MapMarker) (startId : string) :
  NoDup (id <$> ms) →
  startId ∈ id <$> ms →
  ∃ (startMarker : MapMarker) (tail : list MapMarker),
    calculateOptimizedRoute ms startId = Normal (Some (startMarker :: tail))
    ∧ id startMarker = startId
    ∧ startMarker ∈ ms
    ∧ startMarker :: tail ≡ₚ ms
    ∧ (id <$> startMarker :: tail) ≡ₚ (id <$> ms)
    ∧ NoDup (id <$> startMarker :: tail)
    ∧ length (startMarker :: tail) = length ms.
Proof.
  intros Hnd Hin.
  destruct (find_id_Some ms startId Hin) as (sm & Hfind & Hsm & Hid).
  destruct (nearestNeighbourLoop_perm (filter (λ m, id m ≠ startId) ms) [sm])
    as (tail & Hloop & Hperm); [done|].
  assert (sm :: tail ≡ₚ ms) as Hall.
  { rewrite Hperm. subst startId. by apply filter_other_ids. }
  pose proof (fmap_Permutation id _ _ Hall) as Hids.
  assert (NoDup (id <$> sm :: tail)) as Hnd' by (by rewrite Hids).
  assert (length (sm :: tail) = length ms) as Hlen by (by rewrite Hall).
  assert (calculateOptimizedRoute ms startId = Normal (Some (sm :: tail))) as Hres.
  { unfold calculateOptimizedRoute. rewrite Hfind. simpl. by rewrite Hloop. }
  by exists sm, tail.
Qed.

(** What the scan guarantees of every step, not-a-number included: each
    marker of the route after the first is a member of the pool (the input
    without the markers placed before it, in input order) such that no
    pool member is strictly nearer to its predecessor, and no pool member
    ahead of it in the pool's order is as near. *)
Theorem calculateOptimizedRoute_nearest_first (ms : list MapMarker) (startId : string) :
  NoDup (id <$> ms) →
  startId ∈ id <$> ms →
  ∃ route : list MapMarker,
    calculateOptimizedRoute ms startId = Normal (Some route)
    ∧ ∀ (k : nat) (prev x : MapMarker),
        route !! k = Some prev →
        route !! S k = Some x →
        nearest_first prev (pool ms (take (S k) route)) x.
Proof.
  intros Hnd Hin.
  destruct (find_id_Some ms startId Hin) as (sm & Hfind & Hsm & Hid).
  assert (filter (λ m, id m ≠ startId) ms = pool ms [sm]) as Hpool.
  { apply list_filter_iff. intros m. simpl. rewrite list_elem_of_singleton.
    by subst. }
  destruct (nearestNeighbourLoop_perm (pool ms [sm]) [sm])
    as (tail & Hloop & _); [done|].
  exists ([sm] ++ tail). unfold calculateOptimizedRoute.
  rewrite Hfind, Hpool. simpl. split; [by rewrite Hloop|].
  intros k prev x Hprev Hx.
  apply (nearestNeighbourLoop_greedy ms Hnd (length (pool ms [sm])) [sm] tail);
    try done.
  simpl. lia.
Qed.

(** C4. A start id carried by no marker of the input makes the optimiser
    return [null], without an exception, and [handleOptimizeRoute] then
    stores [null] as the route. *)
Theorem calculateOptimizedRoute_unknown_start (ms : list MapMarker) (startId : string) :
  startId ∉ id <$> ms →
  calculateOptimizedRoute ms startId = Normal None
  ∧ ∀ s : AppState,
      selectedMarkers s = ms →
      ∃ s', handleOptimizeRoute (Some startId) s = Normal s'
            ∧ optimizedRoute s' = None
            ∧ startMarkerId s' = Some startId
            ∧ markers s' = markers s
            ∧ selectedMarkers s' = selectedMarkers s.
Proof.
  intros Hnot.
  assert (calculateOptimizedRoute ms startId = Normal None) as Hnone.
  { unfold calculateOptimizedRoute. by rewrite find_id_None. }
  split; [done|]. intros s <-. unfold handleOptimizeRoute.
  destruct (truthy (Some startId)); [rewrite Hnone|]; simpl; eauto 10.
Qed.

End RouteOptimizer.

(** ** The marker store *)

Section MarkerStore.

Context {M : MathLib}.

(** The arrow function handed to [map] by [handleMarkerMove]. *)
Local Abbreviation moved i lat lng :=
  (λ marker, if decide (id marker = i) then withPosition lat lng marker else marker).

Lemma moved_id (i : string) (lat lng : float) (m : MapMarker) :
  id (moved i lat lng m) = id m.
Proof. simpl. by case_decide. Qed.

Lemma moved_idemp (i : string) (lat lng : float) (l : list MapMarker) :
  moved i lat lng <$> (moved i lat lng <$> l) = moved i lat lng <$> l.
Proof.
  rewrite <- list_fmap_compose. apply list_fmap_ext. intros k m _. simpl.
  destruct (decide (id m = i)) as [H|H]; simpl;
    [by rewrite decide_True | by rewrite decide_False].
Qed.

Lemma moved_ids (i : string) (lat lng : float) (l : list MapMarker) :
  id <$> (moved i lat lng <$> l) = id <$> l.
Proof.
  rewrite <- list_fmap_compose. apply list_fmap_ext. intros k m _. apply moved_id.
Qed.

Lemma moved_absent (i : string) (lat lng : float) (l : list MapMarker) :
  i ∉ id <$> l → moved i lat lng <$> l = l.
Proof.
  intros Hnot. rewrite <- (list_fmap_id l) at 2. apply list_fmap_ext.
  intros k m Hk. rewrite decide_False; [done|]. intros Heq. destruct Hnot.
  apply list_elem_of_fmap. exists m. split; [done | by eapply list_elem_of_lookup_2].
Qed.

Lemma some_id_spec (i : string) (l : list MapMarker) :
  some (λ m, id m = i) l = true ↔ i ∈ id <$> l.
Proof.
  unfold some. rewrite bool_decide_eq_true, Exists_exists, list_elem_of_fmap.
  split; intros (m & H1 & H2); exists m; by split.
Qed.

Lemma some_id_moved (i j : string) (lat lng : float) (l : list MapMarker) :
  some (λ m, id m = i) (moved j lat lng <$> l) = some (λ m, id m = i) l.
Proof.
  apply eq_true_iff_eq. by rewrite !some_id_spec, moved_ids.
Qed.

(** The optimiser never throws: the route it reads the last element of
    is never empty. *)
Lemma calculateOptimizedRoute_returns (ms : list MapMarker) (startId : string) :
  ∃ r, calculateOptimizedRoute ms startId = Normal r.
Proof.
  unfold calculateOptimizedRoute.
  destruct (find _ ms) as [sm|]; [|by eexists].
  destruct (nearestNeighbourLoop_perm (filter (λ m, id m ≠ startId) ms) [sm])
    as (tail & -> & _); [done|]. by eexists.
Qed.

(** What [handleDataLoaded] leaves alone. *)
Lemma handleDataLoaded_frame (newMarkers : list MapMarker) (s : AppState) :
  let s' := handleDataLoaded newMarkers s in
  markers s' = newMarkers
  ∧ selectedMarkers s' = selectedMarkers s
  ∧ optimizedRoute s' = optimizedRoute s
  ∧ startMarkerId s' = startMarkerId s
  ∧ isDrawing s' = isDrawing s.
Proof. done. Qed.

(** C5. [handleDelete] keeps, in order, exactly the markers whose id is
    not the id of a selected marker, and clears the selection, the route
    and the start point. *)
Theorem handleDelete_spec (s : AppState) :
  let s' := handleDelete s in
  (∀ m, m ∈ markers s' → id m ∉ id <$> selectedMarkers s)
  ∧ (∀ m, m ∈ markers s → id m ∉ id <$> selectedMarkers s → m ∈ markers s')
  ∧ markers s' `sublist_of` markers s
  ∧ selectedMarkers s' = []
  ∧ optimizedRoute s' = None
  ∧ startMarkerId s' = None.
Proof.
  simpl. split_and!; try done.
  - intros m [Hid _]%list_elem_of_filter. by rewrite elem_of_list_to_set in Hid.
  - intros m Hm Hid. apply list_elem_of_filter. by rewrite elem_of_list_to_set.
  - apply sublist_filter.
Qed.

(** C6, as amended.  With a start point of a non-empty id designated (a
    truthy [startMarkerId]) and the moved id among the selected markers, [handleMarkerMove] gives every
    marker of that id its new position, in the collection and in the
    selection, leaves the other markers as they were, and stores the
    route computed afresh over the updated selection from the same start
    id. *)
Theorem handleMarkerMove_recomputes (s : AppState) (i : string) (lat lng : float)
    (startId : string) :
  startMarkerId s = Some startId →
  truthy (startMarkerId s) = true →
  i ∈ id <$> selectedMarkers s →
  ∃ (s' : AppState) (route : option (list MapMarker)),
    handleMarkerMove i lat lng s = Normal s'
    ∧ calculateOptimizedRoute (selectedMarkers s') startId = Normal route
    ∧ optimizedRoute s' = route
    ∧ startMarkerId s' = Some startId
    ∧ (∀ k, markers s' !! k = moved i lat lng <$> markers s !! k)
    ∧ (∀ k, selectedMarkers s' !! k = moved i lat lng <$> selectedMarkers s !! k)
    ∧ (∀ m, m ∈ markers s' ∨ m ∈ selectedMarkers s' → id m = i →
         latitude m = lat ∧ longitude m = lng).
Proof.
  intros Hstart Htruthy Hsel.
  destruct (calculateOptimizedRoute_returns
              (moved i lat lng <$> selectedMarkers s) startId) as [route Hroute].
  exists (setOptimizedRoute route
            (setSelectedMarkers (moved i lat lng <$> selectedMarkers s)
               (setMarkers (moved i lat lng <$> markers s) s))), route.
  split_and!; try done.
  - unfold handleMarkerMove.
    rewrite (proj2 (some_id_spec i _) Hsel), Hstart.
    rewrite Hstart in Htruthy. rewrite Htruthy, Hroute. done.
  - intros k. simpl. apply list_lookup_fmap.
  - intros k. simpl. apply list_lookup_fmap.
  - simpl. intros m [Hm | Hm] Hid;
      apply list_elem_of_fmap in Hm as (m0 & -> & _);
      rewrite moved_id in Hid; by rewrite decide_True.
Qed.

(** C7. Moving a marker a second time to the same place changes nothing:
    the collection, the selection and the route are those of the first
    move. *)
Theorem handleMarkerMove_idempotent (s : AppState) (i : string) (lat lng : float) :
  ∃ s1 : AppState,
    handleMarkerMove i lat lng s = Normal s1
    ∧ handleMarkerMove i lat lng s1 = Normal s1.
Proof.
  unfold handleMarkerMove.
  destruct (some (λ m, id m = i) (selectedMarkers s)) eqn:Hsome.
  - destruct (startMarkerId s) as [startId|] eqn:Hstart.
    + destruct (truthy (Some startId)) eqn:Htruthy.
      * destruct (calculateOptimizedRoute_returns
                    (moved i lat lng <$> selectedMarkers s) startId) as [r Hr].
        rewrite Hr. eexists. split; [done|]. simpl.
        rewrite some_id_moved, Hsome, Hstart, Htruthy, !moved_idemp, Hr. done.
      * eexists. split; [done|]. simpl.
        by rewrite some_id_moved, Hsome, Hstart, Htruthy, !moved_idemp.
    + eexists. split; [done|]. simpl.
      by rewrite some_id_moved, Hsome, Hstart, !moved_idemp.
  - eexists. split; [done|]. simpl. by rewrite Hsome, moved_idemp.
Qed.

(** C8. [handleUpdateIcons] gives the markers of the collection whose id
    is the id of a selected marker the new icon and nothing else new;
    every other marker stays as it is, at its place. *)
Theorem handleUpdateIcons_spec (s : AppState) (iconUrl : string) :
  let s' := handleUpdateIcons iconUrl s in
  length (markers s') = length (markers s)
  ∧ ∀ (k : nat) (m : MapMarker),
      markers s !! k = Some m →
      (id m ∉ id <$> selectedMarkers s → markers s' !! k = Some m)
      ∧ (id m ∈ id <$> selectedMarkers s →
           ∃ m', markers s' !! k = Some m'
                 ∧ icon m' = Some iconUrl
                 ∧ id m' = id m
                 ∧ latitude m' = latitude m
                 ∧ longitude m' = longitude m
                 ∧ name m' = name m
                 ∧ extra m' = extra m).
Proof.
  simpl. split; [by rewrite length_fmap|].
  intros k m Hk. rewrite list_lookup_fmap, Hk. simpl.
  split; intros Hid.
  - rewrite decide_False; [done|]. by rewrite elem_of_list_to_set.
  - rewrite decide_True by (by rewrite elem_of_list_to_set).
    by eexists.
Qed.

(** C9, as amended.  [handleUpdateIcons] writes the collection only: the
    selection array, the route and the start point are the ones from
    before.  A collection marker sharing its id with a selected marker
    carries the new icon, so it differs in icon from the selected copy
    exactly when that copy did not already carry this icon. *)
Theorem handleUpdateIcons_selection_stale (s : AppState) (iconUrl : string) :
  let s' := handleUpdateIcons iconUrl s in
  selectedMarkers s' = selectedMarkers s
  ∧ optimizedRoute s' = optimizedRoute s
  ∧ startMarkerId s' = startMarkerId s
  ∧ ∀ m m' : MapMarker,
      m ∈ selectedMarkers s' → m' ∈ markers s' → id m' = id m →
      icon m' = Some iconUrl
      ∧ (icon m ≠ icon m' ↔ icon m ≠ Some iconUrl).
Proof.
  simpl. split_and!; try done.
  intros m m' Hm (m0 & -> & Hm0)%list_elem_of_fmap Hid.
  assert (id m0 = id m) as Hid0 by (by case_decide).
  rewrite decide_True.
  - simpl. done.
  - rewrite elem_of_list_to_set, Hid0. by apply list_elem_of_fmap_2.
Qed.

(** A move of an id that no selected marker carries rewrites the
    collection only. *)
Lemma handleMarkerMove_not_selected (s : AppState) (i : string) (lat lng : float) :
  i ∉ id <$> selectedMarkers s →
  handleMarkerMove i lat lng s
  = Normal (setMarkers (moved i lat lng <$> markers s) s).
Proof.
  intros Hs. unfold handleMarkerMove.
  destruct (some (λ m, id m = i) (selectedMarkers s)) eqn:Hsome; [|done].
  by apply some_id_spec in Hsome.
Qed.

(** C10, as amended.  Moving an id that no marker of the collection and
    no marker of the selection carries leaves the whole state as it was,
    without an exception. *)
Theorem handleMarkerMove_unknown_id (s : AppState) (i : string) (lat lng : float) :
  i ∉ id <$> markers s →
  i ∉ id <$> selectedMarkers s →
  handleMarkerMove i lat lng s = Normal s.
Proof.
  intros Hm Hs. rewrite handleMarkerMove_not_selected by done.
  rewrite moved_absent by done. by destruct s.
Qed.

(** The same under the store's invariant: every selected id is the id of
    a marker of the collection. *)
Corollary handleMarkerMove_unknown_id_consistent (s : AppState) (i : string)
    (lat lng : float) :
  (∀ j, j ∈ id <$> selectedMarkers s → j ∈ id <$> markers s) →
  i ∉ id <$> markers s →
  handleMarkerMove i lat lng s = Normal s.
Proof.
  intros Hinv Hm. rewrite handleMarkerMove_not_selected by (intros H; by apply Hm, Hinv).
  rewrite moved_absent by done. by destruct s.
Qed.

End MarkerStore.

(** ** The handlers on the sample data *)

(** The sample states arise from the handlers. *)
Example routedState_reached :
  @handleOptimizeRoute SeriesMath (Some "marker-1")
    (handleMarkersSelected [marker0; marker1; marker2]
       (handleDataLoaded [marker0; marker1; marker2] initialState))
  = Normal routedState.
Proof. reflexivity. Qed.

Example staleState_reached :
  handleDataLoaded [depot]
    (handleMarkersSelected [marker0; marker1; marker2]
       (handleDataLoaded [marker0; marker1; marker2] initialState))
  = staleState.
Proof. reflexivity. Qed.

Example taggedState_reached :
  handleMarkersSelected [withIcon "pin.png" marker0]
    (handleUpdateIcons "pin.png"
       (handleMarkersSelected [marker0]
          (handleDataLoaded [marker0; marker1] initialState)))
  = taggedState.
Proof. reflexivity. Qed.

(** Three markers on a line, visited from one end. *)
Example route_collinear :
  @calculateOptimizedRoute SeriesMath [marker2; marker1; marker0] "marker-0"
  = Normal (Some [marker0; marker1; marker2]).
Proof. reflexivity. Qed.

(** The distance of one degree of longitude on the equator, in km. *)
Example getDistance_one_degree :
  let d := @getDistance SeriesMath marker0 marker1 in
  ((111.125 <? d) && (d <? 111.25))%float = true.
Proof. reflexivity. Qed.

(** Two markers of one id: both leave the pool with the start marker, and
    the route is shorter than the input. *)
Example route_duplicate_ids :
  @calculateOptimizedRoute SeriesMath [marker0; depot; marker1] "marker-0"
  = Normal (Some [marker0; marker1]).
Proof. reflexivity. Qed.

(** C1. Loading a second file into [routedState] replaces the collection
    and keeps the old selection, route and start id; the specification has
    all three cleared by a load. *)
Theorem handleDataLoaded_keeps_selection :
  let s' := handleDataLoaded [depot] routedState in
  markers s' = [depot]
  ∧ selectedMarkers s' = [marker0; marker1; marker2]
  ∧ optimizedRoute s' = Some [marker1; marker0; marker2]
  ∧ startMarkerId s' = Some "marker-1".
Proof. by simpl. Qed.

(** The optimiser theorems at the three sample markers. *)
Lemma calculateOptimizedRoute_permutation_witness :
  ∃ (startMarker : MapMarker) (tail : list MapMarker),
    @calculateOptimizedRoute SeriesMath [marker2; marker1; marker0] "marker-0"
      = Normal (Some (startMarker :: tail))
    ∧ id startMarker = "marker-0"
    ∧ startMarker ∈ [marker2; marker1; marker0]
    ∧ startMarker :: tail ≡ₚ [marker2; marker1; marker0]
    ∧ (id <$> startMarker :: tail) ≡ₚ (id <$> [marker2; marker1; marker0])
    ∧ NoDup (id <$> startMarker :: tail)
    ∧ length (startMarker :: tail) = length [marker2; marker1; marker0].
Proof.
  apply (@calculateOptimizedRoute_permutation SeriesMath
           [marker2; marker1; marker0] "marker-0"); compute_done.
Defined.

Lemma calculateOptimizedRoute_nearest_first_witness :
  ∃ route : list MapMarker,
    @calculateOptimizedRoute SeriesMath [marker2; marker1; marker0] "marker-0"
      = Normal (Some route)
    ∧ ∀ (k : nat) (prev x : MapMarker),
        route !! k = Some prev →
        route !! S k = Some x →
        @nearest_first SeriesMath prev
          (pool [marker2; marker1; marker0] (take (S k) route)) x.
Proof.
  apply (@calculateOptimizedRoute_nearest_first SeriesMath
           [marker2; marker1; marker0] "marker-0"); compute_done.
Defined.

Lemma calculateOptimizedRoute_unknown_start_witness :
  @calculateOptimizedRoute SeriesMath [marker0; marker1; marker2] "marker-7"
    = Normal None
  ∧ ∀ s : AppState,
      selectedMarkers s = [marker0; marker1; marker2] →
      ∃ s', @handleOptimizeRoute SeriesMath (Some "marker-7") s = Normal s'
            ∧ optimizedRoute s' = None
            ∧ startMarkerId s' = Some "marker-7"
            ∧ markers s' = markers s
            ∧ selectedMarkers s' = selectedMarkers s.
Proof.
  apply (@calculateOptimizedRoute_unknown_start SeriesMath
           [marker0; marker1; marker2] "marker-7"); compute_done.
Defined.

(** Dragging [marker2] next to the start marker of [routedState]. *)
Lemma handleMarkerMove_recomputes_witness :
  ∃ (s' : AppState) (route : option (list MapMarker)),
    @handleMarkerMove SeriesMath "marker-2" 0 1.5 routedState = Normal s'
    ∧ @calculateOptimizedRoute SeriesMath (selectedMarkers s') "marker-1" = Normal route
    ∧ optimizedRoute s' = route
    ∧ startMarkerId s' = Some "marker-1"
    ∧ (∀ k, markers s' !! k
            = (λ marker, if decide (id marker = "marker-2")
                         then withPosition 0 1.5 marker else marker)
                <$> markers routedState !! k)
    ∧ (∀ k, selectedMarkers s' !! k
            = (λ marker, if decide (id marker = "marker-2")
                         then withPosition 0 1.5 marker else marker)
                <$> selectedMarkers routedState !! k)
    ∧ (∀ m, m ∈ markers s' ∨ m ∈ selectedMarkers s' → id m = "marker-2" →
         latitude m = 0%float ∧ longitude m = 1.5%float).
Proof.
  apply (@handleMarkerMove_recomputes SeriesMath routedState "marker-2" 0 1.5 "marker-1");
    [reflexivity | reflexivity | compute_done].
Defined.

(** After that move the route runs the other way round. *)
Example route_after_move :
  (s' ← @handleMarkerMove SeriesMath "marker-2" 0 1.5 routedState;
   Normal (optimizedRoute s'))
  = Normal (Some [marker1; withPosition 0 1.5 marker2; marker0]).
Proof. reflexivity. Qed.

(** A move of an id that [routedState] does not know. *)
Lemma handleMarkerMove_unknown_id_witness :
  @handleMarkerMove SeriesMath "marker-7" 5 5 routedState = Normal routedState.
Proof.
  apply (@handleMarkerMove_unknown_id SeriesMath routedState "marker-7" 5 5);
    compute_done.
Defined.

(** C10, as stated, fails on [staleState]: ["marker-1"] is the id of no
    marker of the collection, yet moving it rewrites the selection. *)
Lemma handleMarkerMove_unknown_id_counterexample :
  ¬ ∀ (M : MathLib) (s : AppState) (i : string) (lat lng : float),
      i ∉ id <$> markers s →
      ∃ s', handleMarkerMove i lat lng s = Normal s'
            ∧ markers s' = markers s
            ∧ selectedMarkers s' = selectedMarkers s
            ∧ optimizedRoute s' = optimizedRoute s
            ∧ startMarkerId s' = startMarkerId s.
Proof.
  intros H.
  destruct (H SeriesMath staleState "marker-1" 5%float 5%float)
    as (s' & Hs' & _ & Hsel & _); [compute_done|].
  injection Hs' as <-.
  apply (bool_decide_pack _) in Hsel. vm_compute in Hsel. exact Hsel.
Qed.

(** C9, as stated, fails on [taggedState]: tagging with the icon the
    selected copy already carries leaves the two icons equal. *)
Lemma handleUpdateIcons_selection_stale_counterexample :
  ¬ ∀ (s : AppState) (iconUrl : string),
      selectedMarkers (handleUpdateIcons iconUrl s) = selectedMarkers s
      ∧ ∀ m m' : MapMarker,
          m ∈ selectedMarkers (handleUpdateIcons iconUrl s) →
          m' ∈ markers (handleUpdateIcons iconUrl s) →
          id m' = id m →
          icon m ≠ icon m'.
Proof.
  intros H. destruct (H taggedState "pin.png") as [_ Hdiffer].
  apply (Hdiffer (withIcon "pin.png" marker0) (withIcon "pin.png" marker0));
    [compute_done | compute_done | reflexivity | reflexivity].
Qed.

(** Deleting the selection of [routedState] minus its first marker. *)
Example handleDelete_sample :
  handleDelete (setSelectedMarkers [marker1; marker2] routedState)
  = {| markers := [marker0]; selectedMarkers := []; isDrawing := false;
       optimizedRoute := None; startMarkerId := None |}.
Proof. reflexivity. Qed.

(** Tagging while [marker0] and [marker2] are selected. *)
Example handleUpdateIcons_sample :
  markers (handleUpdateIcons "pin.png" (setSelectedMarkers [marker0; marker2] routedState))
  = [withIcon "pin.png" marker0; marker1; withIcon "pin.png" marker2].
Proof. reflexivity. Qed.

(** * Further properties *)

(** ** The optimiser on any input *)

Section RouteShape.

Context {M : MathLib}.

Lemma find_id_first (ms : list MapMarker) (startId : string) :
  startId ∈ id <$> ms →
  ∃ (k : nat) (startMarker : MapMarker),
    find (λ m, id m = startId) ms = Some startMarker
    ∧ ms !! k = Some startMarker
    ∧ id startMarker = startId
    ∧ ∀ j m, j < k → ms !! j = Some m → id m ≠ startId.
Proof.
  intros (m & Hid & Hm)%list_elem_of_fmap. unfold find.
  destruct (list_find (λ m, id m = startId) ms) as [[k y]|] eqn:E.
  - apply list_find_Some in E as (Hk & Hy & Hbefore).
    exists k, y. split_and!; [done..|]. intros j q Hj Hq. by apply (Hbefore j).
  - apply list_find_None in E. rewrite Forall_forall in E. by destruct (E m).
Qed.

(** The two ways [calculateOptimizedRoute] can end. *)
Lemma calculateOptimizedRoute_cases (ms : list MapMarker) (startId : string) :
  (calculateOptimizedRoute ms startId = Normal None ∧ startId ∉ id <$> ms)
  ∨ ∃ (k : nat) (startMarker : MapMarker) (tail : list MapMarker),
      calculateOptimizedRoute ms startId = Normal (Some (startMarker :: tail))
      ∧ ms !! k = Some startMarker
      ∧ id startMarker = startId
      ∧ (∀ j m, j < k → ms !! j = Some m → id m ≠ startId)
      ∧ tail ≡ₚ filter (λ m, id m ≠ startId) ms.
Proof.
  destruct (decide (startId ∈ id <$> ms)) as [Hin|Hnot].
  - right. destruct (find_id_first ms startId Hin) as (k & sm & Hfind & Hk & Hid & Hfirst).
    destruct (nearestNeighbourLoop_perm (filter (λ m, id m ≠ startId) ms) [sm])
      as (tail & Hloop & Hperm); [done|].
    exists k, sm, tail. split_and!; try done.
    unfold calculateOptimizedRoute. rewrite Hfind. simpl. by rewrite Hloop.
  - left. split; [|done]. unfold calculateOptimizedRoute. by rewrite find_id_None.
Qed.

(** X4. Whatever the input, duplicates of ids included: when some marker
    carries the start id, the route is the first such marker followed by
    the markers of every other id in some order; further markers of the
    start id are left out of the route. *)
Theorem calculateOptimizedRoute_any_input (ms : list MapMarker) (startId : string) :
  startId ∈ id <$> ms →
  ∃ (k : nat) (startMarker : MapMarker) (tail : list MapMarker),
    calculateOptimizedRoute ms startId = Normal (Some (startMarker :: tail))
    ∧ ms !! k = Some startMarker
    ∧ id startMarker = startId
    ∧ (∀ j m, j < k → ms !! j = Some m → id m ≠ startId)
    ∧ tail ≡ₚ filter (λ m, id m ≠ startId) ms
    ∧ (∀ m, m ∈ tail → id m ≠ startId)
    ∧ length (startMarker :: tail) ≤ length ms.
Proof.
  intros Hin.
  destruct (calculateOptimizedRoute_cases ms startId)
    as [[_ Hnot] | (k & sm & tail & Hres & Hk & Hid & Hfirst & Hperm)]; [done|].
  exists k, sm, tail. split_and!; try done.
  - intros m Hm. rewrite Hperm in Hm. by apply list_elem_of_filter in Hm as [? _].
  - simpl. rewrite Hperm.
    pose proof (filter_app_complement (λ m, id m ≠ startId) ms) as Hsplit.
    apply Permutation_length in Hsplit. rewrite length_app in Hsplit.
    assert (sm ∈ filter (λ m, ¬ id m ≠ startId) ms) as Hsm.
    { apply list_elem_of_filter. split; [by intros H|by eapply list_elem_of_lookup_2]. }
    destruct (filter (λ m, ¬ id m ≠ startId) ms); [by apply elem_of_nil in Hsm|].
    simpl in Hsplit. lia.
Qed.

End RouteShape.

(** ** Invariants over sessions *)

Section Sessions.

Context {M : MathLib}.

Lemma truthy_Some (startId : string) :
  truthy (Some startId) = true → startId ≠ "".
Proof. simpl. by intros ?%bool_decide_eq_true. Qed.

(** A route fresh from the optimiser is anchored at the start id asked
    for, whatever else the state holds. *)
Lemma fresh_route_anchored (ms : list MapMarker) (startId : string) (s : AppState) :
  startMarkerId s = Some startId →
  startId ≠ "" →
  ∃ route, calculateOptimizedRoute ms startId = Normal route
           ∧ route_anchored (setOptimizedRoute route s).
Proof.
  intros Hstart Hne.
  destruct (calculateOptimizedRoute_cases ms startId)
    as [[Hres _] | (k & sm & tail & Hres & _ & Hid & _)];
    rewrite Hres; eexists; (split; [done|]); intros r Hr; simplify_eq/=.
  by exists sm, tail.
Qed.

Lemma dispatch_route_anchored (e : Event) (s : AppState) :
  route_anchored s →
  ∃ s', dispatch e s = Normal s' ∧ route_anchored s'.
Proof.
  intros Hinv. destruct e as [ms|inside| |[startId|]| |i lat lng|iconUrl];
    unfold dispatch.
  - eexists. split; [done|]. exact Hinv.
  - eexists. split; [done|]. exact Hinv.
  - eexists. split; [done|]. unfold handleToggleDrawing.
    destruct (negb (isDrawing s)); [by intros r Hr | exact Hinv].
  - unfold handleOptimizeRoute.
    destruct (truthy (Some startId)) eqn:Htruthy.
    + destruct (fresh_route_anchored (selectedMarkers s) startId
                  (setStartMarkerId (Some startId) s))
        as (route & -> & Hanch); [done | by apply truthy_Some |].
      by eexists.
    + eexists. split; [done|]. by intros r Hr.
  - eexists. split; [done|]. by intros r Hr.
  - eexists. split; [done|]. by intros r Hr.
  - unfold handleMarkerMove.
    destruct (some (λ m, id m = i) (selectedMarkers s)); [|by eexists].
    destruct (startMarkerId s) as [startId|] eqn:Hstart; [|eexists; split; [done|]].
    + destruct (truthy (Some startId)) eqn:Htruthy.
      * edestruct (fresh_route_anchored) as (route & -> & Hanch);
          [| by apply truthy_Some | by eexists].
        done.
      * eexists. split; [done|]. intros r Hr. destruct (Hinv r Hr) as (sm & tl & H).
        by exists sm, tl.
    + intros r Hr. destruct (Hinv r Hr) as (sm & tl & ? & ? & ?). congruence.
  - eexists. split; [done|]. exact Hinv.
Qed.

(** Every event is handled without an exception. *)
Lemma dispatch_returns (e : Event) (s : AppState) :
  ∃ s', dispatch e s = Normal s'.
Proof.
  destruct e as [ms|inside| |[startId|]| |i lat lng|iconUrl]; unfold dispatch;
    try by eexists.
  - unfold handleOptimizeRoute. destruct (truthy (Some startId)); [|by eexists].
    destruct (calculateOptimizedRoute_returns (selectedMarkers s) startId) as [r ->].
    by eexists.
  - unfold handleMarkerMove.
    destruct (some (λ m, id m = i) (selectedMarkers s)); [|by eexists].
    destruct (startMarkerId s) as [startId|]; [|by eexists].
    destruct (truthy (Some startId)); [|by eexists].
    destruct (calculateOptimizedRoute_returns
                ((λ marker, if decide (id marker = i)
                            then withPosition lat lng marker else marker)
                   <$> selectedMarkers s) startId) as [r ->].
    by eexists.
Qed.

(** X1. No session throws, whatever the state it starts in; and when in
    that state a stored route begins with a marker that carries the stored
    start id, that id not being the empty string, the same holds of the
    state the session ends in. *)
Theorem run_route_anchored (es : list Event) (s : AppState) :
  ∃ s', run es s = Normal s' ∧ (route_anchored s → route_anchored s').
Proof.
  revert s. induction es as [|e es IH]; intros s; simpl.
  - by exists s.
  - destruct (dispatch_returns e s) as [s1 Hs1]. rewrite Hs1. simpl.
    destruct (IH s1) as (s' & Hrun & Hkeep). exists s'. split; [done|].
    intros Hinv. apply Hkeep.
    destruct (dispatch_route_anchored e s Hinv) as (s1' & Hs1' & Hinv1).
    rewrite Hs1 in Hs1'. injection Hs1' as <-. exact Hinv1.
Qed.

(** What a move returns, in every state. *)
Lemma handleMarkerMove_result (s : AppState) (i : string) (lat lng : float) :
  ∃ s',
    handleMarkerMove i lat lng s = Normal s'
    ∧ markers s'
      = (λ marker, if decide (id marker = i) then withPosition lat lng marker else marker)
          <$> markers s
    ∧ selectedMarkers s'
      = (λ marker, if decide (id marker = i) then withPosition lat lng marker else marker)
          <$> selectedMarkers s
    ∧ startMarkerId s' = startMarkerId s
    ∧ isDrawing s' = isDrawing s
    ∧ (optimizedRoute s' = optimizedRoute s
         ∧ (i ∈ id <$> selectedMarkers s → truthy (startMarkerId s) = false)
       ∨ ∃ startId,
           i ∈ id <$> selectedMarkers s
           ∧ startMarkerId s = Some startId
           ∧ startId ≠ ""
           ∧ calculateOptimizedRoute (selectedMarkers s') startId
             = Normal (optimizedRoute s')).
Proof.
  unfold handleMarkerMove.
  destruct (some (λ m, id m = i) (selectedMarkers s)) eqn:Hsome.
  - apply some_id_spec in Hsome.
    destruct (startMarkerId s) as [startId|] eqn:Hstart.
    + destruct (truthy (Some startId)) eqn:Htruthy.
      * destruct (calculateOptimizedRoute_returns
                    ((λ marker, if decide (id marker = i)
                                then withPosition lat lng marker else marker)
                       <$> selectedMarkers s) startId) as [r Hr].
        rewrite Hr. eexists. split_and!; try done.
        right. exists startId. split_and!; try done. by apply truthy_Some.
      * eexists. split_and!; try done. by left.
    + eexists. split_and!; try done. by left.
  - assert (i ∉ id <$> selectedMarkers s) as Hout.
    { intros Hin. apply some_id_spec in Hin. congruence. }
    eexists. split_and!; try done; [|by left]. simpl. by rewrite moved_absent.
Qed.

Lemma store_ok_same_ids (s s' : AppState) :
  id <$> markers s' = id <$> markers s →
  id <$> selectedMarkers s' = id <$> selectedMarkers s →
  store_ok s → store_ok s'.
Proof. unfold store_ok. by intros -> ->. Qed.

Lemma withIcon_ids (iconUrl : string) (selectedIds : gset string) (l : list MapMarker) :
  id <$> ((λ marker, if decide (id marker ∈ selectedIds)
                     then withIcon iconUrl marker else marker) <$> l)
  = id <$> l.
Proof.
  rewrite <- list_fmap_compose. apply list_fmap_ext. intros k m _. simpl.
  by case_decide.
Qed.

Lemma filter_ids_NoDup (P : MapMarker → Prop) `{!∀ m, Decision (P m)}
    (l : list MapMarker) :
  NoDup (id <$> l) → NoDup (id <$> filter P l).
Proof.
  intros Hnd. eapply sublist_NoDup; [exact Hnd|]. apply fmap_sublist, sublist_filter.
Qed.

Lemma filter_ids_subseteq (P : MapMarker → Prop) `{!∀ m, Decision (P m)}
    (l : list MapMarker) (j : string) :
  j ∈ id <$> filter P l → j ∈ id <$> l.
Proof.
  intros (m & -> & [_ Hm]%list_elem_of_filter)%list_elem_of_fmap.
  by apply list_elem_of_fmap_2.
Qed.

(** X2. Every event but a load keeps the store in order: ids distinct in
    the collection and in the selection, and every selected id the id of a
    collection marker.  A load keeps it when the new markers have distinct
    ids and still carry every selected id. *)
Theorem dispatch_store_ok (e : Event) (s : AppState) :
  store_ok s →
  (∀ newMarkers, e = DataLoaded newMarkers →
     NoDup (id <$> newMarkers)
     ∧ ∀ j, j ∈ id <$> selectedMarkers s → j ∈ id <$> newMarkers) →
  ∃ s', dispatch e s = Normal s' ∧ store_ok s'.
Proof.
  intros Hok Hload. pose proof Hok as (Hms & Hsel & Hsub).
  destruct e as [ms|inside| |startId| |i lat lng|iconUrl]; unfold dispatch.
  - destruct (Hload ms eq_refl) as [Hnd Hkeep]. by eexists.
  - eexists. split; [done|]. split_and!; simpl; [done|..].
    + by apply filter_ids_NoDup.
    + intros j. apply filter_ids_subseteq.
  - eexists. split; [done|]. unfold handleToggleDrawing.
    destruct (negb (isDrawing s)); [|done].
    split_and!; simpl; [done | constructor |]. by intros j ?%elem_of_nil.
  - unfold handleOptimizeRoute. destruct startId as [startId|]; [|by eexists].
    destruct (truthy (Some startId)); [|by eexists].
    destruct (calculateOptimizedRoute_returns (selectedMarkers s) startId) as [r ->].
    by eexists.
  - eexists. split; [done|]. split_and!; simpl.
    + by apply filter_ids_NoDup.
    + constructor.
    + by intros j ?%elem_of_nil.
  - destruct (handleMarkerMove_result s i lat lng) as (s' & Hs' & Hm & Hs & _).
    exists s'. split; [done|].
    eapply store_ok_same_ids; [..|exact Hok]; [rewrite Hm|rewrite Hs]; apply moved_ids.
  - eexists. split; [done|].
    eapply store_ok_same_ids; [..|exact Hok]; [apply withIcon_ids|done].
Qed.

(** Over markers of distinct ids, a route from the optimiser rearranges
    them. *)
Lemma fresh_route_covers (ms : list MapMarker) (startId : string) :
  NoDup (id <$> ms) →
  ∃ route, calculateOptimizedRoute ms startId = Normal route
           ∧ ∀ r, route = Some r → r ≡ₚ ms.
Proof.
  intros Hnd.
  destruct (calculateOptimizedRoute_cases ms startId)
    as [[Hres _] | (k & sm & tail & Hres & Hk & Hid & _ & Hperm)];
    rewrite Hres; eexists; (split; [done|]); intros r [= <-].
  rewrite Hperm. subst startId.
  apply filter_other_ids; [done | by eapply list_elem_of_lookup_2].
Qed.

(** X3. In a store in order, with an anchored route that visits the
    selected markers each once, every event leaves a route that does so
    too, a finished drawing excepted when a route is stored: the new
    selection then stands beside the old route. *)
Theorem dispatch_route_covers_selection (e : Event) (s : AppState) :
  store_ok s →
  route_anchored s →
  route_covers_selection s →
  (∀ inside, e = DrawCreated inside → optimizedRoute s = None) →
  ∃ s', dispatch e s = Normal s' ∧ route_covers_selection s'.
Proof.
  intros (Hms & Hsel & Hsub) Hanch Hcov Hdraw.
  destruct e as [ms|inside| |startId| |i lat lng|iconUrl]; unfold dispatch.
  - by eexists.
  - eexists. split; [done|]. intros r Hr. simpl in Hr.
    by rewrite (Hdraw inside eq_refl) in Hr.
  - eexists. split; [done|]. unfold handleToggleDrawing.
    by destruct (negb (isDrawing s)).
  - unfold handleOptimizeRoute. destruct startId as [startId|]; [|by eexists].
    destruct (truthy (Some startId)); [|by eexists].
    destruct (fresh_route_covers (selectedMarkers s) startId Hsel) as (route & -> & Hr).
    eexists. split; [done|]. exact Hr.
  - by eexists.
  - destruct (handleMarkerMove_result s i lat lng)
      as (s' & Hs' & Hm' & Hsel' & Hstart' & _ & Hroute).
    exists s'. split; [done|]. intros r Hr.
    destruct Hroute as [Hsame | (startId & Hin & Hstart & Hne & Hcalc)].
    + destruct Hsame as [Hsame Hfalsy]. rewrite Hsame in Hr.
      destruct (decide (i ∈ id <$> selectedMarkers s)) as [Hin|Hout].
      * destruct (Hanch r Hr) as (sm & tl & _ & Hst & Hne).
        specialize (Hfalsy Hin). rewrite Hst in Hfalsy. simpl in Hfalsy.
        by rewrite bool_decide_true in Hfalsy.
      * rewrite Hsel', moved_absent by done. by apply Hcov.
    + destruct (fresh_route_covers (selectedMarkers s') startId) as (route & Hres & Hperm).
      { by rewrite Hsel', moved_ids. }
      rewrite Hcalc in Hres. injection Hres as <-. by apply Hperm.
  - eexists. split; [done|]. exact Hcov.
Qed.

End Sessions.

(** ** How the handlers compose *)

Section Composition.

Context {M : MathLib}.

Local Abbreviation moved i lat lng :=
  (λ marker, if decide (id marker = i) then withPosition lat lng marker else marker).

Lemma moved_overwrite (i : string) (a b c d : float) (l : list MapMarker) :
  moved i c d <$> (moved i a b <$> l) = moved i c d <$> l.
Proof.
  rewrite <- list_fmap_compose. apply list_fmap_ext. intros k m _. simpl.
  destruct (decide (id m = i)) as [H|H]; simpl;
    [by rewrite decide_True | by rewrite decide_False].
Qed.

Lemma moved_comm (i j : string) (a b c d : float) (l : list MapMarker) :
  i ≠ j →
  moved j c d <$> (moved i a b <$> l) = moved i a b <$> (moved j c d <$> l).
Proof.
  intros Hne. rewrite <- !list_fmap_compose. apply list_fmap_ext. intros k m _. simpl.
  destruct (decide (id m = i)) as [Hi|Hi], (decide (id m = j)) as [Hj|Hj]; simpl;
    repeat case_decide; simpl in *; congruence.
Qed.

(** X6. Deleting twice is deleting once, and with nothing selected a
    delete leaves the collection as it is. *)
Theorem handleDelete_twice (s : AppState) :
  handleDelete (handleDelete s) = handleDelete s
  ∧ (selectedMarkers s = [] → markers (handleDelete s) = markers s).
Proof.
  split.
  - unfold handleDelete. simpl. rewrite filter_all; [done|].
    apply Forall_forall. intros m _. set_solver.
  - intros Hsel. unfold handleDelete. simpl. rewrite Hsel. simpl.
    apply filter_all, Forall_forall. intros m _. set_solver.
Qed.

(** X7. Of two taggings in a row the later one decides: the state is the
    one the later tagging alone gives. *)
Theorem handleUpdateIcons_last_wins (s : AppState) (first second : string) :
  handleUpdateIcons second (handleUpdateIcons first s) = handleUpdateIcons second s.
Proof.
  unfold handleUpdateIcons. simpl. unfold setMarkers. simpl. f_equal.
  rewrite <- list_fmap_compose. apply list_fmap_ext. intros k m _. simpl.
  destruct (decide (id m ∈ (list_to_set (id <$> selectedMarkers s) : gset string)))
    as [H|H]; simpl; [by rewrite decide_True | by rewrite decide_False].
Qed.

(** X11. Two presses of the drawing button give back the drawing flag and
    the collection, and always lose the selection, the route and the
    start point. *)
Theorem handleToggleDrawing_twice (s : AppState) :
  let s' := handleToggleDrawing (handleToggleDrawing s) in
  isDrawing s' = isDrawing s
  ∧ markers s' = markers s
  ∧ selectedMarkers s' = []
  ∧ optimizedRoute s' = None
  ∧ startMarkerId s' = None.
Proof. destruct s as [ms sel [] r st]; by simpl. Qed.

(** X8. Of two moves of one id in a row the later one decides: collection,
    selection and route are those the later move alone gives. *)
Theorem handleMarkerMove_last_wins (s : AppState) (i : string) (a b c d : float) :
  (s1 ← handleMarkerMove i a b s; handleMarkerMove i c d s1)
  = handleMarkerMove i c d s.
Proof.
  unfold handleMarkerMove.
  destruct (some (λ m, id m = i) (selectedMarkers s)) eqn:Hsome.
  - destruct (startMarkerId s) as [startId|] eqn:Hstart.
    + destruct (truthy (Some startId)) eqn:Htruthy.
      * destruct (calculateOptimizedRoute_returns
                    (moved i a b <$> selectedMarkers s) startId) as [r Hr].
        rewrite Hr. simpl.
        by rewrite some_id_moved, Hsome, Hstart, Htruthy, !moved_overwrite.
      * simpl. by rewrite some_id_moved, Hsome, Hstart, Htruthy, !moved_overwrite.
    + simpl. by rewrite some_id_moved, Hsome, Hstart, !moved_overwrite.
  - simpl. by rewrite Hsome, moved_overwrite.
Qed.

(** X9. Moves of two different ids can be made in either order: the final
    collection, selection and route are the same. *)
Theorem handleMarkerMove_commute (s : AppState) (i j : string) (a b c d : float) :
  i ≠ j →
  (s1 ← handleMarkerMove i a b s; handleMarkerMove j c d s1)
  = (s1 ← handleMarkerMove j c d s; handleMarkerMove i a b s1).
Proof.
  intros Hne. unfold handleMarkerMove.
  destruct (some (λ m, id m = i) (selectedMarkers s)) eqn:Hi,
           (some (λ m, id m = j) (selectedMarkers s)) eqn:Hj,
           (startMarkerId s) as [startId|] eqn:Hstart;
    try destruct (truthy (Some startId)) eqn:Htruthy;
    repeat match goal with
      | |- context [calculateOptimizedRoute ?l ?x] =>
          let r := fresh "r" in let Hr := fresh "Hr" in
          destruct (calculateOptimizedRoute_returns l x) as [r Hr]; rewrite Hr
      end;
    simpl;
    rewrite ?some_id_moved, ?Hi, ?Hj, ?Hstart, ?Htruthy;
    try rewrite (moved_comm i j a b c d (markers s)) by done;
    try rewrite (moved_comm i j a b c d (selectedMarkers s)) by done;
    repeat match goal with
      | |- context [calculateOptimizedRoute ?l ?x] =>
          let r := fresh "r" in let Hr := fresh "Hr" in
          destruct (calculateOptimizedRoute_returns l x) as [r Hr]; rewrite Hr
      end;
    simpl;
    repeat match goal with
      | H1 : ?x = Normal ?r1, H2 : ?x = Normal ?r2 |- _ =>
          rewrite H1 in H2; injection H2 as <-
      end;
    done.
Qed.

Lemma NoDup_ids_inj (l : list MapMarker) (x y : MapMarker) :
  NoDup (id <$> l) → x ∈ l → y ∈ l → id x = id y → x = y.
Proof.
  induction l as [|m l IH]; intros Hnd Hx Hy Hid; [by apply elem_of_nil in Hx|].
  rewrite fmap_cons in Hnd. apply NoDup_cons in Hnd as [Hm Hnd].
  apply elem_of_cons in Hx as [-> | Hx]; apply elem_of_cons in Hy as [-> | Hy].
  - done.
  - destruct Hm. rewrite Hid. by apply list_elem_of_fmap_2.
  - destruct Hm. rewrite <- Hid. by apply list_elem_of_fmap_2.
  - by apply IH.
Qed.

Lemma filter_ext_in {A} (P Q : A → Prop) `{!∀ x, Decision (P x), !∀ x, Decision (Q x)}
    (l : list A) :
  (∀ x, x ∈ l → P x ↔ Q x) → filter P l = filter Q l.
Proof.
  induction l as [|x l IH]; intros Heq; [done|].
  rewrite !filter_cons, IH by (intros y Hy; apply Heq; by right).
  destruct (decide (P x)) as [HP|HP].
  - rewrite decide_True; [done|]. apply Heq; [by left|done].
  - rewrite decide_False; [done|]. intros HQ. apply HP, Heq; [by left|done].
Qed.

(** X10. In a collection of distinct ids, drawing a region and deleting
    removes the markers inside the region and no other: what stays is, in
    order, the markers outside it. *)
Theorem delete_drawn_region (inside : float → float → bool) (s : AppState) :
  NoDup (id <$> markers s) →
  markers (handleDelete (onDrawCreated inside s))
  = filter (λ m, inside (longitude m) (latitude m) ≠ true) (markers s).
Proof.
  intros Hnd. simpl. apply filter_ext_in. intros m Hm.
  rewrite elem_of_list_to_set, list_elem_of_fmap. split.
  - intros Hout Hin. apply Hout. exists m. split; [done|]. by apply list_elem_of_filter.
  - intros Hout (m' & Hid & [Hin' Hm']%list_elem_of_filter).
    by rewrite (NoDup_ids_inj (markers s) m m') in Hout.
Qed.

(** X12. A move never adds, removes or reorders markers, and changes
    nothing but positions: ids, names, icons and further attributes stay,
    in the collection and in the selection, as do the start id and the
    drawing flag; a marker of another id stays as it is. *)
Theorem handleMarkerMove_frame (s : AppState) (i : string) (lat lng : float) :
  ∃ s',
    handleMarkerMove i lat lng s = Normal s'
    ∧ (λ m, (id m, name m, icon m, extra m)) <$> markers s'
      = (λ m, (id m, name m, icon m, extra m)) <$> markers s
    ∧ (λ m, (id m, name m, icon m, extra m)) <$> selectedMarkers s'
      = (λ m, (id m, name m, icon m, extra m)) <$> selectedMarkers s
    ∧ startMarkerId s' = startMarkerId s
    ∧ isDrawing s' = isDrawing s
    ∧ (∀ k m, markers s !! k = Some m → id m ≠ i → markers s' !! k = Some m)
    ∧ (∀ k m, selectedMarkers s !! k = Some m → id m ≠ i →
         selectedMarkers s' !! k = Some m).
Proof.
  destruct (handleMarkerMove_result s i lat lng)
    as (s' & Hs' & Hm & Hsel & Hstart & Hdraw & _).
  assert (∀ l : list MapMarker,
            (λ m, (id m, name m, icon m, extra m)) <$> (moved i lat lng <$> l)
            = (λ m, (id m, name m, icon m, extra m)) <$> l) as Hkeep.
  { intros l. rewrite <- list_fmap_compose. apply list_fmap_ext. intros k m _.
    simpl. by case_decide. }
  assert (∀ (l : list MapMarker) k m,
            l !! k = Some m → id m ≠ i → (moved i lat lng <$> l) !! k = Some m) as Hother.
  { intros l k m Hk Hne. rewrite list_lookup_fmap, Hk. simpl. by rewrite decide_False. }
  exists s'. rewrite Hm, Hsel. split_and!; auto.
Qed.

End Composition.

(** ** Counting *)

(** X13. In a store in order, a delete takes away as many markers as are
    selected: the total shown afterwards is the total before less the
    number selected. *)
Theorem handleDelete_count (s : AppState) :
  store_ok s →
  length (markers (handleDelete s)) + length (selectedMarkers s)
  = length (markers s).
Proof.
  intros (Hms & Hsel & Hsub). simpl.
  set (selectedIds := list_to_set (id <$> selectedMarkers s) : gset string).
  pose proof (filter_app_complement (λ m, id m ∈ selectedIds) (markers s)) as Hsplit.
  apply Permutation_length in Hsplit. rewrite length_app in Hsplit.
  assert (id <$> filter (λ m, id m ∈ selectedIds) (markers s)
          ≡ₚ id <$> selectedMarkers s) as Hsame.
  { apply NoDup_Permutation; [by apply filter_ids_NoDup | done |].
    intros j. split.
    - intros (m & -> & [Hin _]%list_elem_of_filter)%list_elem_of_fmap.
      by apply elem_of_list_to_set in Hin.
    - intros Hj. destruct (proj1 (list_elem_of_fmap _ _ _) (Hsub j Hj)) as (m & -> & Hm).
      apply list_elem_of_fmap_2, list_elem_of_filter. split; [|done].
      by apply elem_of_list_to_set. }
  apply Permutation_length in Hsame. rewrite !length_fmap in Hsame. lia.
Qed.

(** ** Least distance *)

Section Least.

Context {M : MathLib}.

(** X5. When no distance between two markers of the input is
    not-a-number, each marker of the route after the first is at the least
    distance from its predecessor among the pool, and strictly nearer than
    every pool member ahead of it in the pool's order. *)
Theorem calculateOptimizedRoute_least (ms : list MapMarker) (startId : string) :
  NoDup (id <$> ms) →
  startId ∈ id <$> ms →
  Forall (λ p, Forall (λ q, is_nan (getDistance p q) = false) ms) ms →
  ∃ route : list MapMarker,
    calculateOptimizedRoute ms startId = Normal (Some route)
    ∧ ∀ (k : nat) (prev x : MapMarker),
        route !! k = Some prev →
        route !! S k = Some x →
        ∃ i : nat,
          pool ms (take (S k) route) !! i = Some x
          ∧ (∀ q, q ∈ pool ms (take (S k) route) →
               (getDistance prev x <=? getDistance prev q)%float = true)
          ∧ (∀ j q, j < i → pool ms (take (S k) route) !! j = Some q →
               (getDistance prev x <? getDistance prev q)%float = true).
Proof.
  intros Hnd Hin Hnan.
  destruct (find_id_Some ms startId Hin) as (sm & Hfind & Hsm & Hid).
  assert (filter (λ m, id m ≠ startId) ms = pool ms [sm]) as Hpool.
  { apply list_filter_iff. intros m. simpl. rewrite list_elem_of_singleton.
    by subst. }
  destruct (nearestNeighbourLoop_perm (pool ms [sm]) [sm])
    as (tail & Hloop & Hperm); [done|].
  assert ([sm] ++ tail ≡ₚ ms) as Hall.
  { simpl. rewrite Hperm, <- Hpool. subst startId. by apply filter_other_ids. }
  exists ([sm] ++ tail). unfold calculateOptimizedRoute.
  rewrite Hfind, Hpool. simpl. split; [by rewrite Hloop|].
  intros k prev x Hprev Hx.
  apply nearest_first_least.
  - apply (nearestNeighbourLoop_greedy ms Hnd (length (pool ms [sm])) [sm] tail);
      try done.
    simpl. lia.
  - intros q [_ Hq]%list_elem_of_filter.
    assert (prev ∈ ms) as Hp.
    { rewrite <- Hall. by eapply list_elem_of_lookup_2. }
    rewrite Forall_forall in Hnan. specialize (Hnan prev Hp).
    rewrite Forall_forall in Hnan. by apply Hnan.
Qed.

End Least.

(** ** The further properties on the sample data *)

(** The sample session ends with the dragged, tagged markers deleted. *)
Example sampleSession_end :
  @run SeriesMath sampleSession initialState
  = Normal {| markers := [marker2]; selectedMarkers := []; isDrawing := false;
              optimizedRoute := None; startMarkerId := None |}.
Proof. reflexivity. Qed.

(** [routedSession] from [routedState]: a route is stored at the start
    and another at the end. *)
Lemma run_route_anchored_witness :
  ∃ s', @run SeriesMath routedSession routedState = Normal s' ∧ route_anchored s'.
Proof.
  destruct (@run_route_anchored SeriesMath routedSession routedState)
    as (s' & Hrun & Hkeep).
  exists s'. split; [exact Hrun|]. apply Hkeep.
  intros r Hr. injection Hr as <-. exists marker1, [marker0; marker2].
  split_and!; [reflexivity | reflexivity | discriminate].
Defined.

Example routedSession_end :
  @run SeriesMath routedSession routedState
  = Normal
      {| markers := [depot];
         selectedMarkers := [marker0; marker1; withPosition 0 1.5 marker2];
         isDrawing := false;
         optimizedRoute := Some [marker0; marker1; withPosition 0 1.5 marker2];
         startMarkerId := Some "marker-0" |}.
Proof. reflexivity. Qed.

Lemma routedState_store_ok : store_ok routedState.
Proof. split_and!; [compute_done | compute_done | by intros j]. Defined.

Lemma routedState_route_anchored : route_anchored routedState.
Proof.
  intros r Hr. injection Hr as <-. exists marker1, [marker0; marker2].
  split_and!; [reflexivity | reflexivity | discriminate].
Defined.

(** A second file that still has the ids of the selection. *)
Lemma dispatch_store_ok_witness :
  ∃ s', @dispatch SeriesMath (DataLoaded [marker2; marker1; depot]) routedState
          = Normal s'
        ∧ store_ok s'.
Proof.
  apply (@dispatch_store_ok SeriesMath (DataLoaded [marker2; marker1; depot]) routedState).
  - exact routedState_store_ok.
  - intros newMarkers Hload. injection Hload as <-.
    split; [compute_done|]. apply Forall_forall. compute_done.
Defined.

(** A drag while a route is stored. *)
Lemma dispatch_route_covers_selection_witness :
  ∃ s', @dispatch SeriesMath (MarkerMove "marker-2" 0 1.5) routedState = Normal s'
        ∧ route_covers_selection s'.
Proof.
  apply (@dispatch_route_covers_selection SeriesMath
           (MarkerMove "marker-2" 0 1.5) routedState).
  - exact routedState_store_ok.
  - exact routedState_route_anchored.
  - intros r Hr. injection Hr as <-. simpl. apply perm_swap.
  - intros inside Hdraw. discriminate Hdraw.
Defined.

(** Two markers of the start id. *)
Lemma calculateOptimizedRoute_any_input_witness :
  ∃ (k : nat) (startMarker : MapMarker) (tail : list MapMarker),
    @calculateOptimizedRoute SeriesMath [marker1; marker0; depot] "marker-0"
      = Normal (Some (startMarker :: tail))
    ∧ [marker1; marker0; depot] !! k = Some startMarker
    ∧ id startMarker = "marker-0"
    ∧ (∀ j m, j < k → [marker1; marker0; depot] !! j = Some m → id m ≠ "marker-0")
    ∧ tail ≡ₚ filter (λ m, id m ≠ "marker-0") [marker1; marker0; depot]
    ∧ (∀ m, m ∈ tail → id m ≠ "marker-0")
    ∧ length (startMarker :: tail) ≤ length [marker1; marker0; depot].
Proof.
  apply (@calculateOptimizedRoute_any_input SeriesMath
           [marker1; marker0; depot] "marker-0"); compute_done.
Defined.

Example route_second_of_an_id_dropped :
  @calculateOptimizedRoute SeriesMath [marker1; marker0; depot] "marker-0"
  = Normal (Some [marker0; marker1]).
Proof. reflexivity. Qed.

Lemma calculateOptimizedRoute_least_witness :
  ∃ route : list MapMarker,
    @calculateOptimizedRoute SeriesMath [marker2; marker1; marker0] "marker-0"
      = Normal (Some route)
    ∧ ∀ (k : nat) (prev x : MapMarker),
        route !! k = Some prev →
        route !! S k = Some x →
        ∃ i : nat,
          pool [marker2; marker1; marker0] (take (S k) route) !! i = Some x
          ∧ (∀ q, q ∈ pool [marker2; marker1; marker0] (take (S k) route) →
               (@getDistance SeriesMath prev x <=? @getDistance SeriesMath prev q)%float
               = true)
          ∧ (∀ j q, j < i →
               pool [marker2; marker1; marker0] (take (S k) route) !! j = Some q →
               (@getDistance SeriesMath prev x <? @getDistance SeriesMath prev q)%float
               = true).
Proof.
  apply (@calculateOptimizedRoute_least SeriesMath
           [marker2; marker1; marker0] "marker-0"); compute_done.
Defined.

(** Two drags, of [marker0] and of [marker2], in either order. *)
Lemma handleMarkerMove_commute_witness :
  (s1 ← @handleMarkerMove SeriesMath "marker-0" 0 0.5 routedState;
   @handleMarkerMove SeriesMath "marker-2" 0 1.5 s1)
  = (s1 ← @handleMarkerMove SeriesMath "marker-2" 0 1.5 routedState;
     @handleMarkerMove SeriesMath "marker-0" 0 0.5 s1).
Proof.
  apply (@handleMarkerMove_commute SeriesMath routedState "marker-0" "marker-2").
  discriminate.
Defined.

(** Drawing [westOfTwo] over the three markers and deleting. *)
Lemma delete_drawn_region_witness :
  markers (handleDelete (onDrawCreated westOfTwo routedState))
  = filter (λ m, westOfTwo (longitude m) (latitude m) ≠ true) (markers routedState).
Proof.
  apply (delete_drawn_region westOfTwo routedState). compute_done.
Defined.

(** Deleting the two selected of three markers. *)
Lemma handleDelete_count_witness :
  length (markers (handleDelete (setSelectedMarkers [marker0; marker2] routedState)))
  + length (selectedMarkers (setSelectedMarkers [marker0; marker2] routedState))
  = length (markers (setSelectedMarkers [marker0; marker2] routedState)).
Proof.
  apply (handleDelete_count (setSelectedMarkers [marker0; marker2] routedState)).
  split_and!; [compute_done | compute_done |]. apply Forall_forall. compute_done.
Defined.

(** Without distinct ids a delete reaches outside the region: [depot]
    shares its id with [marker0]. *)
Example delete_reaches_outside_region :
  markers (handleDelete (onDrawCreated westOfTwo
                           (setMarkers [marker0; depot; marker2] routedState)))
  = [marker2].
Proof. reflexivity. Qed.

(** ** Nearest by the haversine distance *)

Section GreatCircle.

Context {M : MathLib}.



End GreatCircle.

(** The polar markers under [PolarMath]: the distance from [polarA] to
    [polarB] is not-a-number (its [a] rounds to a number above 1), so
    [polarB] is visited first although [polarC] is some 55.6 km away. *)
Example polar_route :
  @calculateOptimizedRoute PolarMath [polarA; polarB; polarC] "marker-0"
    = Normal (Some [polarA; polarB; polarC])
  ∧ is_nan (@getDistance PolarMath polarA polarB) = true
  ∧ ((55.5 <? @getDistance PolarMath polarA polarC)
     && (@getDistance PolarMath polarA polarC <? 55.75))%float = true.
Proof. split_and!; reflexivity. Qed.



(** [blankStartState] arises from the handlers. *)
Example blankStartState_reached :
  @handleOptimizeRoute SeriesMath (Some "")
    (handleMarkersSelected [blankIdMarker; marker1]
       (handleDataLoaded [blankIdMarker; marker1] initialState))
  = Normal blankStartState.
Proof. reflexivity. Qed.

(** C6, as stated, fails on [blankStartState]: the start id is the empty
    string, the moved marker is selected, and the move stores no route
    although the optimiser has one for the updated selection. *)
Lemma handleMarkerMove_recomputes_counterexample :
  ¬ ∀ (M : MathLib) (s : AppState) (i : string) (lat lng : float) (startId : string),
      startMarkerId s = Some startId →
      i ∈ id <$> selectedMarkers s →
      ∃ (s' : AppState) (route : option (list MapMarker)),
        handleMarkerMove i lat lng s = Normal s'
        ∧ calculateOptimizedRoute (selectedMarkers s') startId = Normal route
        ∧ optimizedRoute s' = route.
Proof.
  intros H.
  destruct (H SeriesMath blankStartState "marker-1" 0%float 1.5%float "")
    as (s' & route & Hs' & Hcalc & Hroute); [reflexivity | compute_done |].
  vm_compute in Hs'. injection Hs' as <-.
  vm_compute in Hcalc. injection Hcalc as <-.
  vm_compute in Hroute. discriminate Hroute.
Qed.
